(** * ngfly/translate-db: the translation coordinator and its store adapter

    A shallow embedding of [TranslateService] (translate.service.ts) and
    [TranslationDBService] (translate-db.service.ts), and the properties of
    the lookup chain, parameter substitution, initialisation, language
    switching, cache clearing and the store adapter.

    Conventions of the embedding:
    - a JavaScript string is a [string]; a value that may be [undefined]
      (an array read out of range, a missing property) is an [option];
    - a plain object used as a record ([TranslationValue], [params], the
      JSON body of the remote answer) is an association list in the order
      [Object.keys] enumerates it, so that "the first own key" is the head;
    - the [Map] held by the service and the object store of IndexedDB are
      finite maps ([gmap]): only lookup, insertion and clearing are used;
    - methods that touch [this], the console, the subjects or IndexedDB are
      computations in the monad [M] over the record [World]; everything the
      code logs or emits is appended to the [console] trace of the world;
    - an [async] method is run up to the point where it has to wait for the
      pending promise of [init]; the task started by [init] is cut in two at
      its first [await], so that calls made while it is pending see the
      loading state;
    - names that [Object.prototype] defines ([constructor], [__proto__], ...)
      are not used as language codes, parameter names or translation keys:
      reading and writing a record is reading and writing own properties;
    - a request on an open IndexedDB connection succeeds; opening may fail. *)

From stdpp Require Import base option list strings gmap fin_maps.
From Stdlib Require Import Ascii String.

Local Open Scope string_scope.
Local Open Scope list_scope.

(** ** JavaScript objects read as records *)

Module JS.

(** [ToString] of a string that may be [undefined]: what [o[x]] uses as the
    property key, what a template literal interpolates, and what [replace]
    takes as its replacement. *)
Definition ToString (x : option string) : string :=
  match x with
  | Some s => s
  | None => "undefined"
  end.

(** [o[k]] on an object with string values: the own property [k], or
    [undefined].  (Inherited members of [Object.prototype] are outside the
    embedding: keys are language codes and parameter names.) *)
Fixpoint get (o : list (string * string)) (k : string) : option string :=
  match o with
  | [] => None
  | (k', v) :: o' => if decide (k' = k) then Some v else get o' k
  end.

(** [Object.keys(o)] *)
Definition keys {V : Type} (o : list (string * V)) : list string := o.*1.

(** A string is truthy when it is not empty. *)
Definition truthy (s : string) : bool :=
  match s with
  | EmptyString => false
  | String _ _ => true
  end.

(** *** Regular expressions built from a parameter name

    [new RegExp(`{${param}}`, 'g')].  Without the [u] flag a brace that
    does not belong to a quantifier is an ordinary pattern character, so
    the pattern is the literal text [{param}] whenever [param] holds no
    pattern syntax.  When [param] is [n], [n,] or [n,m] (digits) the whole
    pattern is a quantifier with nothing to repeat and the constructor
    throws a [SyntaxError].  A name holding any other pattern syntax gives
    a genuine regular expression, which the embedding does not interpret. *)

Inductive pattern :=
| Literal (text : string)
| NothingToRepeat
| NotLiteral.

Definition is_digit (c : ascii) : bool :=
  let n := nat_of_ascii c in (48 <=? n)%nat && (n <=? 57)%nat.

(** The characters with a meaning of their own in a pattern, and with them
    the braces and the closing bracket. *)
Definition syntax_character (c : ascii) : bool :=
  bool_decide (c ∈@{list ascii} list_ascii_of_string "^$\.*+?()[]|{}").

Fixpoint has_syntax (s : string) : bool :=
  match s with
  | EmptyString => false
  | String c s' => syntax_character c || has_syntax s'
  end.

Fixpoint all_digits (s : string) : bool :=
  match s with
  | EmptyString => true
  | String c s' => is_digit c && all_digits s'
  end.

(** [n], [n,] or [n,m]: what stands between the braces of a quantifier. *)
Fixpoint quantifier_body (seen_digit : bool) (s : string) : bool :=
  match s with
  | EmptyString => seen_digit
  | String c s' =>
      if is_digit c then quantifier_body true s'
      else if decide (c = ","%char) then seen_digit && all_digits s'
      else false
  end.

Definition placeholder_RegExp (param : string) : pattern :=
  if has_syntax param then NotLiteral
  else if quantifier_body false param then NothingToRepeat
  else Literal ("{" +:+ param +:+ "}").

(** *** [String.prototype.replace] with a global literal pattern *)

Fixpoint starts_with (p s : string) : bool :=
  match p, s with
  | EmptyString, _ => true
  | String a p', String b s' => if decide (a = b) then starts_with p' s' else false
  | String _ _, EmptyString => false
  end.

Fixpoint drop (n : nat) (s : string) : string :=
  match n, s with
  | O, _ => s
  | S n', String _ s' => drop n' s'
  | S _, EmptyString => EmptyString
  end.

(** [GetSubstitution] for a pattern without capture groups: [$$] is a
    dollar, [$&] the match, [$`] the text before it and [$'] the text
    after it; any other dollar stands for itself. *)
Fixpoint GetSubstitution (matched before following replacement : string) : string :=
  match replacement with
  | EmptyString => EmptyString
  | String c rest =>
      if decide (c = "$"%char) then
        match rest with
        | String d rest' =>
            if decide (d = "$"%char) then
              String "$" (GetSubstitution matched before following rest')
            else if decide (d = "&"%char) then
              matched +:+ GetSubstitution matched before following rest'
            else if decide (d = "`"%char) then
              before +:+ GetSubstitution matched before following rest'
            else if decide (d = "'"%char) then
              following +:+ GetSubstitution matched before following rest'
            else String c (GetSubstitution matched before following rest)
        | EmptyString => String c EmptyString
        end
      else String c (GetSubstitution matched before following rest)
  end.

(** The scan of [replace]: [before] is the part of the subject already
    passed and [skip] the number of characters of the last match still to
    be passed.  The pattern is never empty here. *)
Fixpoint replace_scan (pat replacement before : string) (skip : nat)
    (s : string) {struct s} : string :=
  match s with
  | EmptyString => EmptyString
  | String c s' =>
      match skip with
      | S n => replace_scan pat replacement (before +:+ String c EmptyString) n s'
      | O =>
          if starts_with pat s then
            GetSubstitution pat before (drop (String.length pat) s) replacement
            +:+ replace_scan pat replacement (before +:+ String c EmptyString)
                  (String.length pat - 1) s'
          else
            String c (replace_scan pat replacement (before +:+ String c EmptyString) 0 s')
      end
  end.

(** [s.replace(new RegExp(pat, 'g'), replacement)] for a literal [pat]. *)
Definition replace (pat replacement s : string) : string :=
  replace_scan pat replacement EmptyString 0 s.

End JS.

(** ** Data model (translation.interface.ts) *)

(** [TranslationValue]: language code -> text, in own-key order. *)
Abbreviation TranslationValue := (list (string * string)).

Record TranslationConfig := {
  projectId : string;
  endpoint : string;
  defaultLang : string;
  acceptedLanguages : list string;
  apiKey : option string;
  dbName : option string;
  moduleName : option string
}.

(** ** The world: both services, the browser around them, and the trace *)

Inductive warning :=
| ServiceNotInitialized                      (* instant, before init *)
| LanguageNotSupported (lang : string) (fallback : option string)
| AcceptedLanguagesEmpty
| DefaultLangNotAccepted (lang : string)
| NotInitializedUsingFallback                (* waitForInitialization *)
| FetchFailed (statusText : string)
| ErrorLoadingFromAPI
| NoCachedTranslations
| DatabaseNotInitialized.                    (* ensureDBInitialized *)

Inductive failure :=
| ErrorInitializingService
| ErrorInitializingDatabase
| ErrorSaving
| ErrorRetrieving
| ErrorRetrievingAll
| ErrorClearing
| ErrorDeleting.

Inductive event :=
| console_warn (m : warning)
| console_error (m : failure)
| console_info_loaded_from_cache
| langChange (lang : option string)          (* langChangeSubject.next *)
| loading (b : bool)                         (* loadingState.next *)
| fetch (url : string)
| openDB (name : string)
| deleteDB (name : string).

(** What [fetch] followed by [response.json()] can produce. *)
Inductive remote_answer :=
| NetworkError                               (* fetch rejects *)
| NotOk (statusText : string)                (* response.ok is false *)
| MalformedBody                              (* response.json() rejects *)
| Body (data : list (string * TranslationValue)).

(** The promise created by the first [init]. A pending promise keeps the
    configuration its task closed over. *)
Inductive promise :=
| Pending (config : TranslationConfig)
| Fulfilled
| Rejected.

Record World := {
  (* TranslateService *)
  currentLang : option string;
  accepted : list string;                    (* this.acceptedLanguages *)
  translations : gmap string TranslationValue;
  loadingState : bool;
  langChangeSubject : option string;
  initPromise : option promise;
  (* TranslationDBService: the open connection, by database name *)
  db : option string;
  (* the browser: IndexedDB databases (content of the 'translations' object
     store of each), whether openDB succeeds, and the remote endpoint *)
  indexedDB : gmap string (gmap string TranslationValue);
  openDB_fails : bool;
  remote : remote_answer;
  (* everything logged or emitted so far, oldest first *)
  console : list event
}.

(** A freshly constructed pair of services in a given browser. *)
Definition new_world (idb : gmap string (gmap string TranslationValue))
    (fails : bool) (r : remote_answer) : World :=
  {| currentLang := Some "en";
     accepted := [];
     translations := ∅;
     loadingState := true;
     langChangeSubject := Some "en";
     initPromise := None;
     db := None;
     indexedDB := idb;
     openDB_fails := fails;
     remote := r;
     console := [] |}.

(** ** The monad of method bodies *)

Inductive exn :=
| TypeError                                  (* property read on undefined *)
| SyntaxError                                (* new RegExp on a bad pattern *)
| InitializationFailed.                      (* "Translation initialization failed" *)

(** A call either returns, throws (an [async] method: rejects), or is left
    suspended on the pending initialisation promise.  [Uninterpreted] marks
    a run that builds a regular expression the embedding does not
    interpret ([JS.NotLiteral]). *)
Inductive outcome (A : Type) :=
| Returned (a : A)
| Thrown (e : exn)
| Suspended
| Uninterpreted.
Arguments Returned {A} a.
Arguments Thrown {A} e.
Arguments Suspended {A}.
Arguments Uninterpreted {A}.

Definition M (A : Type) : Type := World → outcome A * World.

Global Instance M_ret : MRet M := λ A a w, (Returned a, w).

Global Instance M_bind : MBind M := λ A B k m w,
  match m w with
  | (Returned a, w') => k a w'
  | (Thrown e, w') => (Thrown e, w')
  | (Suspended, w') => (Suspended, w')
  | (Uninterpreted, w') => (Uninterpreted, w')
  end.

Definition throw {A} (e : exn) : M A := λ w, (Thrown e, w).
Definition suspend {A} : M A := λ w, (Suspended, w).
Definition uninterpreted {A} : M A := λ w, (Uninterpreted, w).

(** [try { body } catch (error) { handler }] *)
Definition try_catch {A} (body : M A) (handler : exn → M A) : M A :=
  λ w, match body w with
       | (Thrown e, w') => handler e w'
       | r => r
       end.

Definition gets {A} (f : World → A) : M A := λ w, (Returned (f w), w).
Definition modify (f : World → World) : M unit := λ w, (Returned tt, f w).

Definition result {A} (r : outcome A * World) : outcome A := r.1.
Definition after {A} (r : outcome A * World) : World := r.2.

(** Field updates. *)
Definition set_currentLang (l : option string) (w : World) : World :=
  {| currentLang := l; accepted := accepted w; translations := translations w;
     loadingState := loadingState w; langChangeSubject := langChangeSubject w;
     initPromise := initPromise w; db := db w; indexedDB := indexedDB w;
     openDB_fails := openDB_fails w; remote := remote w; console := console w |}.
Definition set_accepted (l : list string) (w : World) : World :=
  {| currentLang := currentLang w; accepted := l; translations := translations w;
     loadingState := loadingState w; langChangeSubject := langChangeSubject w;
     initPromise := initPromise w; db := db w; indexedDB := indexedDB w;
     openDB_fails := openDB_fails w; remote := remote w; console := console w |}.
Definition set_translations (t : gmap string TranslationValue) (w : World) : World :=
  {| currentLang := currentLang w; accepted := accepted w; translations := t;
     loadingState := loadingState w; langChangeSubject := langChangeSubject w;
     initPromise := initPromise w; db := db w; indexedDB := indexedDB w;
     openDB_fails := openDB_fails w; remote := remote w; console := console w |}.
Definition set_loadingState (b : bool) (w : World) : World :=
  {| currentLang := currentLang w; accepted := accepted w; translations := translations w;
     loadingState := b; langChangeSubject := langChangeSubject w;
     initPromise := initPromise w; db := db w; indexedDB := indexedDB w;
     openDB_fails := openDB_fails w; remote := remote w; console := console w |}.
Definition set_langChangeSubject (l : option string) (w : World) : World :=
  {| currentLang := currentLang w; accepted := accepted w; translations := translations w;
     loadingState := loadingState w; langChangeSubject := l;
     initPromise := initPromise w; db := db w; indexedDB := indexedDB w;
     openDB_fails := openDB_fails w; remote := remote w; console := console w |}.
Definition set_initPromise (p : option promise) (w : World) : World :=
  {| currentLang := currentLang w; accepted := accepted w; translations := translations w;
     loadingState := loadingState w; langChangeSubject := langChangeSubject w;
     initPromise := p; db := db w; indexedDB := indexedDB w;
     openDB_fails := openDB_fails w; remote := remote w; console := console w |}.
Definition set_db (d : option string) (w : World) : World :=
  {| currentLang := currentLang w; accepted := accepted w; translations := translations w;
     loadingState := loadingState w; langChangeSubject := langChangeSubject w;
     initPromise := initPromise w; db := d; indexedDB := indexedDB w;
     openDB_fails := openDB_fails w; remote := remote w; console := console w |}.
Definition set_indexedDB (i : gmap string (gmap string TranslationValue)) (w : World) : World :=
  {| currentLang := currentLang w; accepted := accepted w; translations := translations w;
     loadingState := loadingState w; langChangeSubject := langChangeSubject w;
     initPromise := initPromise w; db := db w; indexedDB := i;
     openDB_fails := openDB_fails w; remote := remote w; console := console w |}.
Definition emit_all (evs : list event) (w : World) : World :=
  {| currentLang := currentLang w; accepted := accepted w; translations := translations w;
     loadingState := loadingState w; langChangeSubject := langChangeSubject w;
     initPromise := initPromise w; db := db w; indexedDB := indexedDB w;
     openDB_fails := openDB_fails w; remote := remote w; console := console w ++ evs |}.
Definition emit (e : event) (w : World) : World := emit_all [e] w.

Definition log (e : event) : M unit := modify (emit e).

(** ** TranslationDBService (translate-db.service.ts) *)

Module TranslationDBService.

Definition STORE_NAME : string := "translations".
Definition DEFAULT_DB_NAME : string := "translations-db".

(** idb's [openDB(name, 1, {upgrade})]: fails when the browser refuses,
    otherwise the database exists afterwards (created empty by [upgrade]
    on first use) and a connection to it is returned. *)
Definition idb_openDB (name : string) : M string :=
  log (openDB name) ;;
  fails ← gets openDB_fails;
  if fails : bool then throw TypeError
  else
    modify (λ w, match indexedDB w !! name with
                 | Some _ => w
                 | None => set_indexedDB (<[name := ∅]> (indexedDB w)) w
                 end) ;;
    mret name.

(** [this.db.<method>]: a property read on [this.db]; a [TypeError] when
    [this.db] is [undefined] or [null]. *)
Definition this_db : M string :=
  d ← gets db;
  match d with
  | Some name => mret name
  | None => throw TypeError
  end.

(** The object store of the database a connection points to. *)
Definition store (name : string) (w : World) : gmap string TranslationValue :=
  default ∅ (indexedDB w !! name).

(** [init] (lines 36-53) *)
Definition init (config : TranslationConfig) : M unit :=
  try_catch
    (let name := default DEFAULT_DB_NAME (dbName config) in
     conn ← idb_openDB name;
     modify (set_db (Some conn)))
    (λ _, log (console_error ErrorInitializingDatabase)).

(** [ensureDBInitialized] (lines 164-168) *)
Definition ensureDBInitialized : M unit :=
  d ← gets db;
  match d with
  | None => log (console_warn DatabaseNotInitialized)
  | Some _ => mret tt
  end.

(** [saveToCache] (lines 62-69) *)
Definition saveToCache (key : string) (value : TranslationValue) : M unit :=
  ensureDBInitialized ;;
  try_catch
    (conn ← this_db;
     modify (λ w, set_indexedDB (<[conn := <[key := value]> (store conn w)]> (indexedDB w)) w))
    (λ _, log (console_error ErrorSaving)).

(** [getFromCache] (lines 78-86): [None] is "not found" ([undefined] from
    the store, [null] from the handler). *)
Definition getFromCache (key : string) : M (option TranslationValue) :=
  ensureDBInitialized ;;
  try_catch
    (conn ← this_db;
     gets (λ w, store conn w !! key))
    (λ _, log (console_error ErrorRetrieving) ;; mret None).

(** [getAllFromCache] (lines 94-111): entries and keys come back in the
    same order; an entry is kept when its key is truthy. *)
Definition getAllFromCache : M (gmap string TranslationValue) :=
  ensureDBInitialized ;;
  try_catch
    (conn ← this_db;
     gets (λ w, filter (λ kv, JS.truthy kv.1 = true) (store conn w)))
    (λ _, log (console_error ErrorRetrievingAll) ;; mret ∅).

(** [clearCache] (lines 118-125) *)
Definition clearCache : M unit :=
  ensureDBInitialized ;;
  try_catch
    (conn ← this_db;
     modify (λ w, set_indexedDB (<[conn := ∅]> (indexedDB w)) w))
    (λ _, log (console_error ErrorClearing)).

(** [clearDB] (lines 133-144) *)
Definition clearDB : M unit :=
  try_catch
    (d ← gets db;
     match d with
     | Some name =>
         log (deleteDB name) ;;
         modify (λ w, set_indexedDB (delete name (indexedDB w)) w) ;;
         modify (set_db None)
     | None => mret tt
     end)
    (λ _, log (console_error ErrorDeleting)).

End TranslationDBService.

(** ** TranslateService (translate.service.ts) *)

Module TranslateService.

Definition loadingState_next (b : bool) : M unit :=
  modify (set_loadingState b) ;; log (loading b).

Definition langChangeSubject_next (l : option string) : M unit :=
  modify (set_langChangeSubject l) ;; log (langChange l).

(** [waitForInitialization] (lines 232-238) *)
Definition waitForInitialization : M unit :=
  p ← gets initPromise;
  match p with
  | None => log (console_warn NotInitializedUsingFallback)
  | Some (Pending _) => suspend
  | Some Fulfilled => mret tt
  | Some Rejected => throw InitializationFailed
  end.

(** [isLanguageSupported] (lines 183-189) *)
Definition isLanguageSupported (w : World) (lang : string) : bool :=
  if loadingState w then true
  else bool_decide (lang ∈@{list string} accepted w).

(** [setLanguage] (lines 161-174) *)
Definition setLanguage (lang : string) : M unit :=
  p ← gets initPromise;
  l ← gets loadingState;
  (if bool_decide (is_Some p) && negb l then waitForInitialization else mret tt) ;;
  supported ← gets (λ w, isLanguageSupported w lang);
  lang' ← (if supported : bool then mret (Some lang)
           else
             first ← gets (λ w, head (accepted w));
             log (console_warn (LanguageNotSupported lang first)) ;;
             mret first);
  modify (set_currentLang lang') ;;
  langChangeSubject_next lang'.

(** [validateConfig] (lines 218-226) *)
Definition validateConfig (config : TranslationConfig) : M unit :=
  (if decide (List.length (acceptedLanguages config) = 0)
   then log (console_warn AcceptedLanguagesEmpty) else mret tt) ;;
  (if bool_decide (defaultLang config ∈@{list string} acceptedLanguages config)
   then mret tt
   else log (console_warn (DefaultLangNotAccepted (defaultLang config)))).

(** "Then try any available language": [translation[languages[0]]] when
    [Object.keys(translation)] is not empty.  The key read is an own key,
    so the read is never [undefined]. *)
Definition anyAvailable (translation : TranslationValue) : option string :=
  match JS.keys translation with
  | l :: _ => JS.get translation l
  | [] => None
  end.

(** [getTranslationFallback] (lines 264-278) *)
Definition getTranslationFallback (w : World) (key : string) : string :=
  match translations w !! key with
  | Some translation =>
      let defaultValue :=
        JS.get translation (JS.ToString (head (accepted w))) in
      match defaultValue with
      | Some v =>
          if JS.truthy v then v
          else default key (anyAvailable translation)
      | None => default key (anyAvailable translation)
      end
  | None => key
  end.

(** [getTranslation] (lines 247-255), with the fallback it calls taken as
    an argument, so that "the fallback is not invoked" can be stated. *)
Definition getTranslationWith (fallback : string → string)
    (w : World) (key : string) : string :=
  match translations w !! key with
  | None => fallback key
  | Some translation =>
      match JS.get translation (JS.ToString (currentLang w)) with
      | Some value => value
      | None => fallback key
      end
  end.

Definition getTranslation (w : World) (key : string) : string :=
  getTranslationWith (getTranslationFallback w) w key.

(** [Array.prototype.reduce] with a callback that may throw. *)
Fixpoint reduce {A B : Type} (f : B → A → M B) (l : list A) (acc : B) : M B :=
  match l with
  | [] => mret acc
  | x :: l' => acc' ← f acc x; reduce f l' acc'
  end.

(** [replaceParams] (lines 331-338) *)
Definition replaceParams (translation : string)
    (params : option (list (string * string))) : M string :=
  match params with
  | None => mret translation
  | Some ps =>
      reduce
        (λ str param,
           match JS.placeholder_RegExp param with
           | JS.Literal regex =>
               mret (JS.replace regex (JS.ToString (JS.get ps param)) str)
           | JS.NothingToRepeat => throw SyntaxError
           | JS.NotLiteral => uninterpreted
           end)
        (JS.keys ps) translation
  end.

(** [instant] (lines 140-151) *)
Definition instant (key : string) (params : option (list (string * string)))
    : M string :=
  p ← gets initPromise;
  match p with
  | None =>
      log (console_warn ServiceNotInitialized) ;;
      mret key
  | Some _ =>
      translation ← gets (λ w, if loadingState w
                               then getTranslationFallback w key
                               else getTranslation w key);
      replaceParams translation params
  end.

(** [translate] (lines 127-130) *)
Definition translate (key : string) : M string :=
  waitForInitialization ;;
  gets (λ w, getTranslation w key).

(** [this.translations.set(key, value)] for each entry, in order. *)
Definition set_all (entries : list (string * TranslationValue))
    (t : gmap string TranslationValue) : gmap string TranslationValue :=
  foldl (λ acc kv, <[kv.1 := kv.2]> acc) t entries.

(** [loadFromCache] (lines 317-328) *)
Definition loadFromCache : M unit :=
  cachedTranslations ← TranslationDBService.getAllFromCache;
  if decide (0 < List.length (map_to_list cachedTranslations)) then
    modify (λ w, set_translations
                   (set_all (map_to_list cachedTranslations) (translations w)) w) ;;
    log console_info_loaded_from_cache
  else
    log (console_warn NoCachedTranslations).

(** The callbacks of [Promise.all(Object.entries(data).map(...))]: one
    save and one [set] per entry.  The entries are independent, so the
    order in which the saves complete does not show in the result; they
    are run here in the order of the entries. *)
Fixpoint saveAll (entries : list (string * TranslationValue)) : M unit :=
  match entries with
  | [] => mret tt
  | (key, value) :: rest =>
      TranslationDBService.saveToCache key value ;;
      modify (λ w, set_translations (<[key := value]> (translations w)) w) ;;
      saveAll rest
  end.

Definition url (config : TranslationConfig) : string :=
  endpoint config +:+ "?projectId=" +:+ projectId config
    +:+ "&apiKey=" +:+ JS.ToString (apiKey config).

(** [loadTranslations] (lines 287-312) *)
Definition loadTranslations (config : TranslationConfig) : M unit :=
  try_catch
    (log (fetch (url config)) ;;
     response ← gets remote;
     match response with
     | NetworkError => throw TypeError
     | NotOk statusText =>
         log (console_warn (FetchFailed statusText)) ;;
         loadFromCache
     | MalformedBody => throw SyntaxError
     | Body data => saveAll data
     end)
    (λ _, log (console_warn ErrorLoadingFromAPI) ;; loadFromCache).

(** The task started by [init] (lines 78-90), cut at its first [await]:
    [task_begin] runs inside the call of [init], [task_rest] later. *)
Definition task_begin (config : TranslationConfig) : M unit :=
  modify (set_accepted (acceptedLanguages config)) ;;
  setLanguage (defaultLang config).

Definition task_rest (config : TranslationConfig) : M unit :=
  TranslationDBService.init config ;;
  loadTranslations config.

(** The [try]/[catch] around the task and the settlement of its promise,
    for any remaining steps. *)
Definition run_task (steps : M unit) : M unit :=
  λ w,
    match try_catch
            (steps ;; loadingState_next false)
            (λ _, log (console_error ErrorInitializingService) ;;
                  loadingState_next false ;;
                  throw InitializationFailed) w with
    | (Returned _, w') => (Returned tt, set_initPromise (Some Fulfilled) w')
    | (Thrown _, w') => (Returned tt, set_initPromise (Some Rejected) w')
    | r => r
    end.

(** [init] (lines 73-93): the call itself.  It returns [this.initPromise];
    what the caller awaits is the state of that field. *)
Definition init (config : TranslationConfig) : M unit :=
  p ← gets initPromise;
  match p with
  | Some _ => mret tt
  | None =>
      validateConfig config ;;
      task_begin config ;;
      modify (set_initPromise (Some (Pending config)))
  end.

(** The pending task of [init] resumes and runs to its end. *)
Definition settle : M unit :=
  p ← gets initPromise;
  match p with
  | Some (Pending config) => run_task (task_rest config)
  | _ => mret tt
  end.

(** [clearModuleCache] (lines 195-199) *)
Definition clearModuleCache : M unit :=
  TranslationDBService.clearCache ;;
  modify (set_translations ∅) ;;
  waitForInitialization.

(** [clearAllCache] (lines 205-209) *)
Definition clearAllCache : M unit :=
  TranslationDBService.clearDB ;;
  modify (set_translations ∅) ;;
  waitForInitialization.

End TranslateService.

(** ** Worlds used to exercise the statements *)

Module Sample.

Definition config : TranslationConfig :=
  {| projectId := "demo"; endpoint := "https://api.example.com/translations";
     defaultLang := "en"; acceptedLanguages := ["en"; "fr"];
     apiKey := None; dbName := None; moduleName := None |}.

Definition hello : TranslationValue := [("en", "Hello"); ("fr", "Bonjour")].

(** A record whose entry for "en" is the empty string and whose first own
    key is another language. *)
Definition blank_en : TranslationValue := [("fr", "Bonjour"); ("en", "")].

Definition table : gmap string TranslationValue :=
  {[ "HELLO" := hello; "BLANK" := blank_en; "NONE" := [];
     "GREETING" := [("en", "Hello {name}")];
     "CHAIN" := [("en", "{a}")];
     "COUNT" := [("en", "{0} items")] ]}.

(** A service that went through [init] with [table] in memory. *)
Definition ready : World :=
  set_initPromise (Some Fulfilled)
    (set_loadingState false
       (set_accepted ["en"; "fr"]
          (set_translations table (new_world ∅ false NetworkError)))).

(** The same service while its load is still pending. *)
Definition loading_world : World :=
  set_initPromise (Some (Pending config))
    (set_accepted ["en"; "fr"]
       (set_translations table (new_world ∅ false NetworkError))).

End Sample.

(** ** Templates: the reading of "each {name} placeholder" *)

Module Template.

(** A resolved string seen as text interleaved with placeholders. *)
Inductive segment :=
| Text (s : string)
| Placeholder (name : string).

Definition braced (name : string) : string := "{" +:+ name +:+ "}".

Definition render_segment (seg : segment) : string :=
  match seg with
  | Text s => s
  | Placeholder name => braced name
  end.

(** The string a template stands for. *)
Fixpoint render (t : list segment) : string :=
  match t with
  | [] => EmptyString
  | seg :: t' => render_segment seg +:+ render t'
  end.

(** The substitution the specification describes: every placeholder with
    a value in [params] becomes that value, the others stay as written. *)
Definition substitute_segment (params : list (string * string)) (seg : segment)
    : string :=
  match seg with
  | Text s => s
  | Placeholder name =>
      match JS.get params name with
      | Some value => value
      | None => braced name
      end
  end.

Fixpoint substitute (params : list (string * string)) (t : list segment) : string :=
  match t with
  | [] => EmptyString
  | seg :: t' => substitute_segment params seg +:+ substitute params t'
  end.

Fixpoint occurs (c : ascii) (s : string) : bool :=
  match s with
  | EmptyString => false
  | String a s' => bool_decide (a = c) || occurs c s'
  end.

(** Text holds no opening brace; a placeholder name holds no brace. *)
Definition well_formed_segment (seg : segment) : bool :=
  match seg with
  | Text s => negb (occurs "{" s)
  | Placeholder name => negb (occurs "{" name) && negb (occurs "}" name)
  end.

Definition well_formed (t : list segment) : bool := forallb well_formed_segment t.

(** A parameter is plain when its name gives a literal pattern and its
    value holds neither an opening brace nor a dollar. *)
Definition plain_name (name : string) : bool :=
  negb (JS.has_syntax name) && negb (JS.quantifier_body false name).

Definition plain_value (value : string) : bool :=
  negb (occurs "{" value) && negb (occurs "$" value).

Definition plain (params : list (string * string)) : bool :=
  forallb (λ p, plain_name p.1 && plain_value p.2) params.

(** One pass of [replaceParams] seen on the template. *)
Definition fill_segment (name value : string) (seg : segment) : segment :=
  match seg with
  | Text s => Text s
  | Placeholder m => if decide (m = name) then Text value else Placeholder m
  end.

End Template.

(** ** Reading the trace *)

Module Trace.

(** Console output, as opposed to notifications and browser requests. *)
Definition diagnostic (e : event) : bool :=
  match e with
  | console_warn _ | console_error _ | console_info_loaded_from_cache => true
  | _ => false
  end.

Definition is_fetch (e : event) : bool :=
  match e with fetch _ => true | _ => false end.

Definition is_openDB (e : event) : bool :=
  match e with openDB _ => true | _ => false end.

Definition is_loading (e : event) : bool :=
  match e with loading _ => true | _ => false end.

Definition count (p : event → bool) (l : list event) : nat :=
  List.length (List.filter p l).

(** The languages announced on [onLangChange], oldest first. *)
Definition notifications (l : list event) : list (option string) :=
  omap (λ e, match e with langChange lang => Some lang | _ => None end) l.

(** What get-all yields in a world: the entries with a truthy key of the
    store behind the open connection, nothing without a connection. *)
Definition snapshot (w : World) : gmap string TranslationValue :=
  match db w with
  | Some conn =>
      filter (λ kv, JS.truthy kv.1 = true) (TranslationDBService.store conn w)
  | None => ∅
  end.

End Trace.

(** ** The service as its host sees it *)

Module Host.

(** The getters of [TranslateService] (lines 99-117). *)
Definition currentLanguage (w : World) : option string := currentLang w.
Definition supportedLanguages (w : World) : list string := accepted w.
Definition isLoading (w : World) : bool := loadingState w.

(** What can happen to the service: a call of one of its public methods,
    or the pending task of [init] running to its end. *)
Inductive call :=
| Init (config : TranslationConfig)
| Resume
| SetLanguage (lang : string)
| Instant (key : string) (params : option (list (string * string)))
| Translate (key : string)
| ClearModuleCache
| ClearAllCache.

(** The world a call leaves behind, whatever it answered. *)
Definition perform (c : call) (w : World) : World :=
  match c with
  | Init config => after (TranslateService.init config w)
  | Resume => after (TranslateService.settle w)
  | SetLanguage lang => after (TranslateService.setLanguage lang w)
  | Instant key params => after (TranslateService.instant key params w)
  | Translate key => after (TranslateService.translate key w)
  | ClearModuleCache => after (TranslateService.clearModuleCache w)
  | ClearAllCache => after (TranslateService.clearAllCache w)
  end.

Definition run (calls : list call) (w : World) : World :=
  foldl (λ w c, perform c w) w calls.

(** The error a save logs when the adapter has no connection. *)
Definition is_failed_save (e : event) : bool :=
  match e with
  | console_error ErrorSaving => true
  | _ => false
  end.

(** The states the service moves through: loading until the promise of
    [init] is fulfilled, and never rejected. *)
Definition coherent (w : World) : Prop :=
  match initPromise w with
  | None => loadingState w = true ∧ accepted w = []
  | Some (Pending config) =>
      loadingState w = true ∧ accepted w = acceptedLanguages config
  | Some Fulfilled => loadingState w = false
  | Some Rejected => False
  end.

(** What a call other than the first [init] and the completion of its task
    leaves untouched, and what it can do to the table and to a closed
    adapter: no request goes out, the table is kept or emptied, and an
    adapter without a connection stays so. *)
Definition kept (w w' : World) : Prop :=
  initPromise w' = initPromise w ∧ loadingState w' = loadingState w
  ∧ accepted w' = accepted w
  ∧ Trace.count Trace.is_fetch (console w') = Trace.count Trace.is_fetch (console w)
  ∧ Trace.count Trace.is_openDB (console w') = Trace.count Trace.is_openDB (console w)
  ∧ (translations w' = translations w ∨ translations w' = ∅)
  ∧ (db w = None → db w' = None ∧ indexedDB w' = indexedDB w).

End Host.

(** * Properties *)

Import TranslateService.

(** ** Lookup resolution *)

Lemma anyAvailable_cons l v (rest : TranslationValue) :
  anyAvailable ((l, v) :: rest) = Some v.
Proof. unfold anyAvailable. simpl. by rewrite decide_True. Qed.

Lemma getTranslationFallback_no_record w k :
  translations w !! k = None → getTranslationFallback w k = k.
Proof. intros H. unfold getTranslationFallback. by rewrite H. Qed.

(** C1. A key without a record goes to the fallback, which has nothing to
    offer for it, so the lookup is the key itself whatever the current
    language; a record holding an entry for the current language answers
    with that entry, whatever the fallback would have said. *)
Theorem getTranslation_resolution (w : World) (k : string) (l : option string) :
  (translations w !! k = None →
     (∀ fallback, getTranslationWith fallback (set_currentLang l w) k = fallback k)
     ∧ getTranslationFallback (set_currentLang l w) k = k
     ∧ getTranslation (set_currentLang l w) k = k)
  ∧ (∀ r v, translations w !! k = Some r →
       JS.get r (JS.ToString l) = Some v →
       getTranslation (set_currentLang l w) k = v
       ∧ ∀ fallback, getTranslationWith fallback (set_currentLang l w) k = v).
Proof.
  split.
  - intros Hnone.
    assert (Hfb : getTranslationFallback (set_currentLang l w) k = k)
      by (apply getTranslationFallback_no_record; exact Hnone).
    split; [ | split; [exact Hfb | ] ].
    + intros fallback. unfold getTranslationWith. simpl. by rewrite Hnone.
    + unfold getTranslation, getTranslationWith. simpl. rewrite Hnone. exact Hfb.
  - intros r v Hrec Hentry.
    assert (Hwith : ∀ fallback, getTranslationWith fallback (set_currentLang l w) k = v).
    { intros fallback. unfold getTranslationWith. simpl. by rewrite Hrec, Hentry. }
    split; [apply Hwith | exact Hwith].
Qed.

Lemma getTranslation_resolution_witness :
  getTranslation (set_currentLang (Some "fr") Sample.ready) "MISSING" = "MISSING"
  ∧ getTranslation (set_currentLang (Some "fr") Sample.ready) "HELLO" = "Bonjour".
Proof.
  split.
  - apply (proj1 (getTranslation_resolution Sample.ready "MISSING" (Some "fr"))).
    reflexivity.
  - apply (proj2 (getTranslation_resolution Sample.ready "HELLO" (Some "fr"))
             Sample.hello "Bonjour"); reflexivity.
Defined.

(** ** Fallback resolution *)




(** C10. The same empty-string entry is treated in two ways: the primary
    step of the lookup returns it (only a missing entry sends the lookup to
    the fallback), so that a ready service answers with the empty string,
    while the fallback passes over an empty entry for the first accepted
    language and answers with the entry of the record's first own key. *)
Theorem empty_string_asymmetry (w : World) (k : string) (r : TranslationValue) :
  translations w !! k = Some r →
  (JS.get r (JS.ToString (currentLang w)) = Some "" →
     getTranslation w k = ""
     ∧ (∀ fallback, getTranslationWith fallback w k = "")
     ∧ (initPromise w ≠ None → loadingState w = false →
          instant k None w = (Returned "", w)))
  ∧ (JS.get r (JS.ToString (head (accepted w))) = Some "" →
       ∃ l v rest, r = (l, v) :: rest ∧ getTranslationFallback w k = v).
Proof.
  intros Hrec. split.
  - intros Hentry.
    assert (Hwith : ∀ fallback, getTranslationWith fallback w k = "").
    { intros fallback. unfold getTranslationWith. by rewrite Hrec, Hentry. }
    split; [apply Hwith | ]. split; [exact Hwith | ].
    intros Hp Hl. unfold instant, mbind, M_bind, gets.
    destruct (initPromise w); [ | done ].
    rewrite Hl. unfold getTranslation. by rewrite Hwith.
  - intros Hentry. destruct r as [ | [l v] rest ]; [discriminate | ].
    exists l, v, rest. split; [reflexivity | ].
    unfold getTranslationFallback. rewrite Hrec, Hentry. simpl.
    by rewrite anyAvailable_cons.
Qed.

Lemma empty_string_asymmetry_witness :
  getTranslation Sample.ready "BLANK" = ""
  ∧ ∃ l v rest, Sample.blank_en = (l, v) :: rest
                ∧ getTranslationFallback Sample.ready "BLANK" = v.
Proof.
  pose proof (empty_string_asymmetry Sample.ready "BLANK" Sample.blank_en eq_refl)
    as [Hprimary Hfallback].
  split.
  - apply Hprimary. reflexivity.
  - apply Hfallback. reflexivity.
Defined.

(** ** Parameter substitution *)

Local Arguments String.append : simpl nomatch.

Section Replace.
Import Template.

Lemma string_app_assoc (a b c : string) : (a +:+ b) +:+ c = a +:+ (b +:+ c).
Proof. induction a as [ | x a IH ]; simpl; [reflexivity | by rewrite IH]. Qed.

Lemma string_app_length (a b : string) :
  String.length (a +:+ b) = String.length a + String.length b.
Proof. induction a as [ | x a IH ]; simpl; [reflexivity | by rewrite IH]. Qed.

Lemma occurs_app c (a b : string) : occurs c (a +:+ b) = occurs c a || occurs c b.
Proof.
  induction a as [ | x a IH ]; simpl; [reflexivity | ].
  rewrite IH. by rewrite Bool.orb_assoc.
Qed.

(** A replacement without a dollar stands for itself. *)
Lemma GetSubstitution_plain matched before following replacement :
  occurs "$" replacement = false →
  JS.GetSubstitution matched before following replacement = replacement.
Proof.
  induction replacement as [ | c rest IH ]; simpl; [reflexivity | ].
  intros Hocc. apply orb_false_elim in Hocc as [Hc Hrest].
  apply bool_decide_eq_false in Hc.
  rewrite decide_False by exact Hc. by rewrite IH.
Qed.

(** Two braced names: one starts the other only when the names agree. *)
Lemma starts_with_name (n m rest : string) :
  occurs "}" n = false → occurs "}" m = false →
  JS.starts_with (n +:+ "}") (m +:+ "}" +:+ rest) = bool_decide (n = m).
Proof.
  revert m. induction n as [ | a n IH ]; intros m Hn Hm.
  - destruct m as [ | b m ]; simpl; [reflexivity | ].
    simpl in Hm. apply orb_false_elim in Hm as [Hb _].
    apply bool_decide_eq_false in Hb.
    case_decide; [congruence | done].
  - simpl in Hn. apply orb_false_elim in Hn as [Ha Hn].
    apply bool_decide_eq_false in Ha.
    destruct m as [ | b m ]; simpl.
    + case_decide; done.
    + simpl in Hm. apply orb_false_elim in Hm as [_ Hm].
      case_decide as Hab.
      * subst b. rewrite IH by assumption.
        repeat case_bool_decide; congruence.
      * case_bool_decide; congruence.
Qed.

Variables (name value : string).
Hypothesis name_no_close : occurs "}" name = false.
Hypothesis value_no_dollar : occurs "$" value = false.

Let pat := braced name.

Lemma string_app_nil_r (a : string) : a +:+ "" = a.
Proof. induction a as [ | x a IH ]; simpl; [reflexivity | by rewrite IH]. Qed.

Lemma replace_scan_here (before : string) c s :
  JS.replace_scan pat value before 0 (String c s)
  = if JS.starts_with pat (String c s)
    then JS.GetSubstitution pat before (JS.drop (String.length pat) (String c s)) value
         +:+ JS.replace_scan pat value (before +:+ String c "") (String.length pat - 1) s
    else String c (JS.replace_scan pat value (before +:+ String c "") 0 s).
Proof. reflexivity. Qed.

(** The scan passes over text that holds no opening brace. *)
Lemma replace_scan_text (t rest before : string) :
  occurs "{" t = false →
  JS.replace_scan pat value before 0 (t +:+ rest)
  = t +:+ JS.replace_scan pat value (before +:+ t) 0 rest.
Proof.
  revert before. induction t as [ | c t IH ]; intros before Ht.
  - by rewrite string_app_nil_r.
  - simpl in Ht. apply orb_false_elim in Ht as [Hc Ht].
    apply bool_decide_eq_false in Hc.
    change (String c t +:+ rest) with (String c (t +:+ rest)).
    rewrite replace_scan_here.
    replace (JS.starts_with pat (String c (t +:+ rest))) with false
      by (unfold pat, braced; simpl; case_decide; congruence).
    rewrite IH by exact Ht.
    rewrite string_app_assoc. reflexivity.
Qed.

(** The scan passes over the rest of a match without looking at it. *)
Lemma replace_scan_skip (t rest before : string) :
  JS.replace_scan pat value before (String.length t) (t +:+ rest)
  = JS.replace_scan pat value (before +:+ t) 0 rest.
Proof.
  revert before. induction t as [ | c t IH ]; intros before.
  - by rewrite string_app_nil_r.
  - simpl. rewrite IH. by rewrite string_app_assoc.
Qed.

(** At a placeholder: replaced when it carries the name, kept otherwise. *)
Lemma replace_scan_placeholder (m rest before : string) :
  occurs "{" m = false → occurs "}" m = false →
  JS.replace_scan pat value before 0 (braced m +:+ rest)
  = render_segment (fill_segment name value (Placeholder m))
    +:+ JS.replace_scan pat value (before +:+ braced m) 0 rest.
Proof.
  intros Hopen Hclose.
  assert (Hshape : braced m +:+ rest = String "{" ((m +:+ "}") +:+ rest)).
  { unfold braced. simpl. by rewrite string_app_assoc. }
  rewrite Hshape, replace_scan_here.
  assert (Hstart : JS.starts_with pat (String "{" ((m +:+ "}") +:+ rest))
                   = bool_decide (name = m)).
  { unfold pat, braced. simpl. rewrite string_app_assoc.
    by apply starts_with_name. }
  rewrite Hstart. simpl. case_bool_decide as Hnm.
  - subst m. rewrite decide_True by reflexivity. simpl.
    rewrite GetSubstitution_plain by exact value_no_dollar.
    rewrite Nat.sub_0_r, replace_scan_skip. f_equal. f_equal.
    unfold braced. simpl. by rewrite string_app_assoc.
  - rewrite decide_False by congruence. simpl. unfold braced at 1. simpl. f_equal.
    rewrite replace_scan_text.
    + f_equal. f_equal. by rewrite string_app_assoc.
    + rewrite occurs_app, Hopen. reflexivity.
Qed.

(** One replacement over a whole template. *)
Lemma replace_scan_render (t : list segment) (before : string) :
  well_formed t = true →
  JS.replace_scan pat value before 0 (render t)
  = render (fill_segment name value <$> t).
Proof.
  revert before. induction t as [ | seg t IH ]; intros before Hwf; [reflexivity | ].
  simpl in Hwf. apply andb_true_iff in Hwf as [Hseg Hwf].
  destruct seg as [ s | m ]; simpl in Hseg.
  - apply negb_true_iff in Hseg.
    change (render (Text s :: t)) with (s +:+ render t).
    rewrite replace_scan_text by exact Hseg. by rewrite IH.
  - apply andb_true_iff in Hseg as [Hopen Hclose].
    apply negb_true_iff in Hopen. apply negb_true_iff in Hclose.
    change (render (Placeholder m :: t)) with (braced m +:+ render t).
    rewrite replace_scan_placeholder by assumption. by rewrite IH.
Qed.

End Replace.

Section ReplaceParams.
Import Template.

Lemma syntax_character_brace c :
  JS.syntax_character c = false → c ≠ "{"%char ∧ c ≠ "}"%char.
Proof.
  unfold JS.syntax_character. intros H. apply bool_decide_eq_false in H.
  split; intros ->; apply H; simpl; set_solver.
Qed.

Lemma has_syntax_brace n :
  JS.has_syntax n = false → occurs "{" n = false ∧ occurs "}" n = false.
Proof.
  induction n as [ | c n IH ]; simpl; [done | ].
  intros H. apply orb_false_elim in H as [Hc Hn].
  destruct (syntax_character_brace c Hc) as [Hopen Hclose].
  destruct (IH Hn) as [-> ->].
  split; apply orb_false_intro; try reflexivity; by apply bool_decide_eq_false.
Qed.

Lemma plain_name_literal n :
  plain_name n = true → JS.placeholder_RegExp n = JS.Literal (braced n).
Proof.
  unfold plain_name, JS.placeholder_RegExp. intros H.
  apply andb_true_iff in H as [Hs Hq].
  apply negb_true_iff in Hs. apply negb_true_iff in Hq.
  by rewrite Hs, Hq.
Qed.

Lemma plain_name_no_close n : plain_name n = true → occurs "}" n = false.
Proof.
  unfold plain_name. intros H. apply andb_true_iff in H as [Hs _].
  apply negb_true_iff in Hs. by apply has_syntax_brace.
Qed.

Lemma well_formed_fill name value t :
  occurs "{" value = false →
  well_formed t = true → well_formed (fill_segment name value <$> t) = true.
Proof.
  intros Hv. induction t as [ | seg t IH ]; simpl; [done | ].
  intros H. apply andb_true_iff in H as [Hseg Ht].
  apply andb_true_iff. split; [ | by apply IH ].
  destruct seg as [ s | m ]; simpl; [exact Hseg | ].
  case_decide; simpl; [by rewrite Hv | exact Hseg].
Qed.

(** [params[param]] for an own key [param]. *)
Lemma get_own_key (ps : list (string * string)) n :
  n ∈ JS.keys ps → ∃ v, JS.get ps n = Some v ∧ (n, v) ∈ ps.
Proof.
  unfold JS.keys. induction ps as [ | [k v] ps IH ]; simpl.
  - intros H. by apply elem_of_nil in H.
  - intros H. case_decide as Hk.
    + subst k. exists v. split; [reflexivity | left].
    + apply elem_of_cons in H as [-> | H]; [done | ].
      destruct (IH H) as (v' & Hget & Hin). exists v'. split; [exact Hget | by right].
Qed.

Lemma get_not_own_key (ps : list (string * string)) n :
  n ∉ JS.keys ps → JS.get ps n = None.
Proof.
  unfold JS.keys. induction ps as [ | [k v] ps IH ]; simpl; [done | ].
  intros H. apply not_elem_of_cons in H as [Hk H].
  rewrite decide_False by congruence. by apply IH.
Qed.

Lemma plain_elem (ps : list (string * string)) n v :
  plain ps = true → (n, v) ∈ ps → plain_name n = true ∧ plain_value v = true.
Proof.
  unfold plain. rewrite forallb_forall. intros H Hin.
  apply list_elem_of_In in Hin. apply H in Hin. simpl in Hin.
  by apply andb_true_iff in Hin.
Qed.

Variable ps : list (string * string).
Hypothesis ps_plain : plain ps = true.

Let val (n : string) : string := JS.ToString (JS.get ps n).

Let pass (str param : string) : M string :=
  match JS.placeholder_RegExp param with
  | JS.Literal regex => mret (JS.replace regex (JS.ToString (JS.get ps param)) str)
  | JS.NothingToRepeat => throw SyntaxError
  | JS.NotLiteral => uninterpreted
  end.

(** The passes of [replaceParams] seen on the template, one name at a time. *)
Lemma reduce_passes (ns : list string) (t : list segment) (w : World) :
  ns ⊆ JS.keys ps → well_formed t = true →
  reduce pass ns (render t) w
  = (Returned (render (foldl (λ t n, fill_segment n (val n) <$> t) t ns)), w).
Proof.
  revert t. induction ns as [ | n ns IH ]; intros t Hsub Hwf; [reflexivity | ].
  assert (Hn : n ∈ JS.keys ps) by (apply Hsub; left).
  destruct (get_own_key ps n Hn) as (v & Hget & Hin).
  destruct (plain_elem ps n v ps_plain Hin) as [Hname Hvalue].
  apply andb_true_iff in Hvalue as [Hopen Hdollar].
  apply negb_true_iff in Hopen. apply negb_true_iff in Hdollar.
  cbn [reduce foldl]. unfold mbind, M_bind.
  unfold pass at 1. rewrite (plain_name_literal n Hname), Hget. cbn [JS.ToString].
  unfold mret, M_ret, JS.replace.
  rewrite replace_scan_render;
    [ | by apply plain_name_no_close | exact Hdollar | exact Hwf ].
  rewrite IH.
  - replace (val n) with v by (unfold val; by rewrite Hget). reflexivity.
  - intros x Hx. apply Hsub. by right.
  - by apply well_formed_fill.
Qed.

Lemma foldl_fill_fmap (ns : list string) (t : list segment) :
  foldl (λ t n, fill_segment n (val n) <$> t) t ns
  = (λ seg, foldl (λ s n, fill_segment n (val n) s) seg ns) <$> t.
Proof.
  revert t. induction ns as [ | n ns IH ]; intros t; simpl.
  - by rewrite list_fmap_id.
  - rewrite IH. by rewrite <- list_fmap_compose.
Qed.

Lemma foldl_fill_text (ns : list string) s :
  foldl (λ s n, fill_segment n (val n) s) (Text s) ns = Text s.
Proof. induction ns as [ | n ns IH ]; simpl; [reflexivity | exact IH]. Qed.

Lemma foldl_fill_placeholder (ns : list string) m :
  foldl (λ s n, fill_segment n (val n) s) (Placeholder m) ns
  = if bool_decide (m ∈ ns) then Text (val m) else Placeholder m.
Proof.
  induction ns as [ | n ns IH ]; cbn [foldl fill_segment].
  - rewrite bool_decide_eq_false_2; [reflexivity | apply not_elem_of_nil].
  - destruct (decide (m = n)) as [Hmn | Hmn].
    + subst n. rewrite foldl_fill_text.
      rewrite bool_decide_eq_true_2; [reflexivity | left].
    + rewrite IH. repeat case_bool_decide; try reflexivity.
      * exfalso. match goal with H : m ∉ _ |- _ => apply H end. by right.
      * exfalso. match goal with H : m ∈ n :: _ |- _ =>
          apply elem_of_cons in H as [? | ?] end; [congruence | done].
Qed.

(** All the passes together are the substitution of the specification. *)
Lemma render_filled (t : list segment) :
  render ((λ seg, foldl (λ s n, fill_segment n (val n) s) seg (JS.keys ps)) <$> t)
  = substitute ps t.
Proof.
  induction t as [ | seg t IH ]; [reflexivity | ].
  cbn [fmap list_fmap render substitute]. rewrite IH. f_equal.
  destruct seg as [ s | m ].
  - by rewrite foldl_fill_text.
  - rewrite foldl_fill_placeholder. cbn [substitute_segment].
    case_bool_decide as Hm.
    + destruct (get_own_key ps m Hm) as (v & Hget & _).
      unfold val. by rewrite Hget.
    + by rewrite (get_not_own_key ps m Hm).
Qed.

Lemma replaceParams_refines (t : list segment) (w : World) :
  well_formed t = true →
  replaceParams (render t) (Some ps) w = (Returned (substitute ps t), w).
Proof.
  intros Hwf. unfold replaceParams. fold pass.
  rewrite reduce_passes; [ | done | exact Hwf ].
  by rewrite foldl_fill_fmap, render_filled.
Qed.

End ReplaceParams.




(** ** The store adapter *)

Ltac run_monad :=
  unfold mbind, M_bind, mret, M_ret, gets, modify, log, try_catch, throw, suspend.

Section StoreAdapter.
Import TranslationDBService.

Lemma saveToCache_run key value w :
  saveToCache key value w
  = match db w with
    | Some conn =>
        (Returned tt,
         set_indexedDB (<[conn := <[key := value]> (store conn w)]> (indexedDB w)) w)
    | None =>
        (Returned tt,
         emit (console_error ErrorSaving) (emit (console_warn DatabaseNotInitialized) w))
    end.
Proof.
  unfold saveToCache, ensureDBInitialized, this_db. run_monad.
  destruct (db w) as [ conn | ] eqn:Hdb; simpl; rewrite ?Hdb; reflexivity.
Qed.

Lemma getFromCache_run key w :
  getFromCache key w
  = match db w with
    | Some conn => (Returned (store conn w !! key), w)
    | None =>
        (Returned None,
         emit (console_error ErrorRetrieving) (emit (console_warn DatabaseNotInitialized) w))
    end.
Proof.
  unfold getFromCache, ensureDBInitialized, this_db. run_monad.
  destruct (db w) as [ conn | ] eqn:Hdb; simpl; rewrite ?Hdb; reflexivity.
Qed.

Lemma getAllFromCache_run w :
  getAllFromCache w
  = match db w with
    | Some conn =>
        (Returned (filter (λ kv, JS.truthy kv.1 = true) (store conn w)), w)
    | None =>
        (Returned ∅,
         emit (console_error ErrorRetrievingAll)
           (emit (console_warn DatabaseNotInitialized) w))
    end.
Proof.
  unfold getAllFromCache, ensureDBInitialized, this_db. run_monad.
  destruct (db w) as [ conn | ] eqn:Hdb; simpl; rewrite ?Hdb; reflexivity.
Qed.

Lemma clearCache_run w :
  clearCache w
  = match db w with
    | Some conn => (Returned tt, set_indexedDB (<[conn := ∅]> (indexedDB w)) w)
    | None =>
        (Returned tt,
         emit (console_error ErrorClearing) (emit (console_warn DatabaseNotInitialized) w))
    end.
Proof.
  unfold clearCache, ensureDBInitialized, this_db. run_monad.
  destruct (db w) as [ conn | ] eqn:Hdb; simpl; rewrite ?Hdb; reflexivity.
Qed.

Lemma clearDB_run w :
  clearDB w
  = match db w with
    | Some name =>
        (Returned tt,
         set_db None (set_indexedDB (delete name (indexedDB w)) (emit (deleteDB name) w)))
    | None => (Returned tt, w)
    end.
Proof.
  unfold clearDB. run_monad.
  destruct (db w) as [ name | ] eqn:Hdb; reflexivity.
Qed.

Lemma init_run config w :
  let name := default DEFAULT_DB_NAME (dbName config) in
  init config w
  = if openDB_fails w
    then (Returned tt, emit (console_error ErrorInitializingDatabase) (emit (openDB name) w))
    else (Returned tt,
          set_db (Some name)
            (match indexedDB w !! name with
             | Some _ => emit (openDB name) w
             | None => set_indexedDB (<[name := ∅]> (indexedDB w)) (emit (openDB name) w)
             end)).
Proof.
  intros name. unfold init, idb_openDB. run_monad. fold name. simpl.
  destruct (openDB_fails w); [reflexivity | ].
  change (indexedDB (emit (openDB name) w)) with (indexedDB w).
  destruct (indexedDB w !! name); reflexivity.
Qed.

End StoreAdapter.

(** C9, as stated, fails for [drop]: [clearDB] on an adapter that was never
    opened returns without logging anything. *)
Lemma clearDB_before_open_is_silent :
  db (new_world ∅ false NetworkError) = None
  ∧ TranslationDBService.clearDB (new_world ∅ false NetworkError)
    = (Returned tt, new_world ∅ false NetworkError)
  ∧ console (after (TranslationDBService.clearDB (new_world ∅ false NetworkError))) = [].
Proof. repeat split; reflexivity. Qed.

(** C9, amended.  Before [open] has completed ([this.db] is not set), no
    operation throws and none changes the store or the adapter: put, get,
    get-all and clear log the warning and then the error of the failure
    they swallow, and resolve to nothing, not-found, the empty mapping and
    nothing; drop resolves without effect and logs nothing. *)
Theorem operations_before_open (w : World) (key : string) (value : TranslationValue) :
  db w = None →
  let warned failure :=
    emit (console_error failure) (emit (console_warn DatabaseNotInitialized) w) in
  TranslationDBService.saveToCache key value w = (Returned tt, warned ErrorSaving)
  ∧ TranslationDBService.getFromCache key w = (Returned None, warned ErrorRetrieving)
  ∧ TranslationDBService.getAllFromCache w = (Returned ∅, warned ErrorRetrievingAll)
  ∧ TranslationDBService.clearCache w = (Returned tt, warned ErrorClearing)
  ∧ TranslationDBService.clearDB w = (Returned tt, w)
  ∧ ∀ failure, indexedDB (warned failure) = indexedDB w ∧ db (warned failure) = None.
Proof.
  intros Hdb warned.
  rewrite saveToCache_run, getFromCache_run, getAllFromCache_run, clearCache_run,
    clearDB_run, Hdb.
  repeat split; try reflexivity. exact Hdb.
Qed.

Lemma operations_before_open_witness :
  let w := new_world {[ "translations-db" := {[ "HELLO" := Sample.hello ]} ]} false NetworkError in
  TranslationDBService.saveToCache "BYE" [("en", "Bye")] w
  = (Returned tt,
     emit (console_error ErrorSaving) (emit (console_warn DatabaseNotInitialized) w))
  ∧ TranslationDBService.getFromCache "HELLO" w
    = (Returned None,
       emit (console_error ErrorRetrieving) (emit (console_warn DatabaseNotInitialized) w)).
Proof.
  intros w.
  pose proof (operations_before_open w) as H.
  split.
  - apply (H "BYE" [("en", "Bye")] eq_refl).
  - apply (H "HELLO" [] eq_refl).
Defined.

(** ** Loading *)

Section Loading.
Import Trace.

Lemma count_app p (l1 l2 : list event) : count p (l1 ++ l2) = count p l1 + count p l2.
Proof. unfold count. by rewrite List.filter_app, length_app. Qed.

Lemma count_diagnostic p (evs : list event) :
  (∀ e, diagnostic e = true → p e = false) →
  forallb diagnostic evs = true → count p evs = 0.
Proof.
  intros Hp. induction evs as [ | e evs IH ]; [reflexivity | ].
  simpl. intros H. apply andb_true_iff in H as [He Hevs].
  unfold count. simpl. rewrite (Hp e He). by apply IH.
Qed.

Lemma emit_all_nil w : emit_all [] w = w.
Proof. destruct w. unfold emit_all. simpl. by rewrite app_nil_r. Qed.

Lemma emit_all_app evs evs' w : emit_all evs' (emit_all evs w) = emit_all (evs ++ evs') w.
Proof. unfold emit_all. simpl. by rewrite app_assoc. Qed.

Lemma set_all_lookup (l : list (string * TranslationValue))
    (t : gmap string TranslationValue) k :
  NoDup l.*1 →
  set_all l t !! k
  = match (list_to_map l : gmap string TranslationValue) !! k with
    | Some r => Some r
    | None => t !! k
    end.
Proof.
  revert t. induction l as [ | [k' v] l IH ]; intros t Hnd; [reflexivity | ].
  apply NoDup_cons in Hnd as [Hk' Hnd].
  cbn [set_all foldl fst snd]. fold (set_all l (<[k':=v]> t)).
  rewrite IH by exact Hnd. cbn [list_to_map foldr]. 
  destruct (decide (k' = k)) as [-> | Hne].
  - rewrite lookup_insert_eq.
    rewrite (not_elem_of_list_to_map_1 _ k Hk'). by rewrite lookup_insert_eq.
  - rewrite !lookup_insert_ne by exact Hne. reflexivity.
Qed.

Lemma set_all_map_to_list (c t : gmap string TranslationValue) k :
  set_all (map_to_list c) t !! k
  = match c !! k with Some r => Some r | None => t !! k end.
Proof.
  rewrite set_all_lookup by apply NoDup_fst_map_to_list.
  by rewrite list_to_map_to_list.
Qed.

(** [loadFromCache] returns; it merges what get-all yields into the table
    and otherwise only writes to the console. *)
Lemma loadFromCache_run w :
  ∃ evs, loadFromCache w
         = (Returned tt,
            set_translations (set_all (map_to_list (snapshot w)) (translations w))
              (emit_all evs w))
         ∧ forallb diagnostic evs = true.
Proof.
  unfold loadFromCache. unfold mbind, M_bind.
  rewrite getAllFromCache_run. unfold snapshot.
  destruct (db w) as [ conn | ] eqn:Hdb.
  - case_decide as Hlen.
    + exists [console_info_loaded_from_cache]. split; [reflexivity | reflexivity].
    + exists [console_warn NoCachedTranslations]. split; [ | reflexivity ].
      destruct (map_to_list _) as [ | x l ]; [ | simpl in Hlen; lia ].
      destruct w; reflexivity.
  - rewrite map_to_list_empty. simpl.
    exists [console_warn DatabaseNotInitialized; console_error ErrorRetrievingAll;
            console_warn NoCachedTranslations].
    split; [ | reflexivity ]. destruct w. unfold log, modify, emit, emit_all. simpl.
    by rewrite <- !app_assoc.
Qed.

(** The saves of a successful fetch return; every entry ends up in the
    table. *)
Lemma saveAll_run data w :
  ∃ evs idb, saveAll data w
             = (Returned tt,
                set_indexedDB idb
                  (set_translations (set_all data (translations w)) (emit_all evs w)))
             ∧ forallb diagnostic evs = true.
Proof.
  revert w. induction data as [ | [key value] data IH ]; intros w.
  - exists [], (indexedDB w). split; [ | reflexivity ].
    rewrite emit_all_nil. destruct w; reflexivity.
  - cbn [saveAll]. unfold mbind, M_bind.
    rewrite saveToCache_run.
    destruct (db w) as [ conn | ] eqn:Hdb; unfold modify;
      match goal with |- context [ saveAll data ?w2 ] =>
        destruct (IH w2) as (evs & idb & Hrun & Hdiag) end;
      rewrite Hrun.
    + exists evs, idb. split; [reflexivity | exact Hdiag].
    + exists ([console_warn DatabaseNotInitialized; console_error ErrorSaving] ++ evs), idb.
      split; [ | exact Hdiag ].
      unfold emit, emit_all, set_indexedDB, set_translations. simpl.
      by rewrite <- !app_assoc.
Qed.

Lemma loadTranslations_run config w :
  ∃ evs idb,
    loadTranslations config w
    = (Returned tt,
       set_indexedDB idb
         (set_translations
            (match remote w with
             | Body data => set_all data (translations w)
             | _ => set_all (map_to_list (snapshot w)) (translations w)
             end)
            (emit_all (fetch (url config) :: evs) w)))
    ∧ forallb diagnostic evs = true.
Proof.
  unfold loadTranslations, try_catch, mbind, M_bind, log, modify, gets, throw.
  cbn [remote emit emit_all].
  destruct (remote w) as [ | statusText | | data ] eqn:Hremote.
  - match goal with |- context [ loadFromCache ?w2 ] =>
      destruct (loadFromCache_run w2) as (evs & Hrun & Hdiag) end.
    rewrite Hrun.
    exists (console_warn ErrorLoadingFromAPI :: evs), (indexedDB w).
    split; [ | exact Hdiag ].
    unfold emit, emit_all, set_indexedDB, set_translations, snapshot. simpl.
    by rewrite <- !app_assoc.
  - match goal with |- context [ loadFromCache ?w2 ] =>
      destruct (loadFromCache_run w2) as (evs & Hrun & Hdiag) end.
    rewrite Hrun.
    exists (console_warn (FetchFailed statusText) :: evs), (indexedDB w).
    split; [ | exact Hdiag ].
    unfold emit, emit_all, set_indexedDB, set_translations, snapshot. simpl.
    by rewrite <- !app_assoc.
  - match goal with |- context [ loadFromCache ?w2 ] =>
      destruct (loadFromCache_run w2) as (evs & Hrun & Hdiag) end.
    rewrite Hrun.
    exists (console_warn ErrorLoadingFromAPI :: evs), (indexedDB w).
    split; [ | exact Hdiag ].
    unfold emit, emit_all, set_indexedDB, set_translations, snapshot. simpl.
    by rewrite <- !app_assoc.
  - match goal with |- context [ saveAll data ?w2 ] =>
      destruct (saveAll_run data w2) as (evs & idb & Hrun & Hdiag) end.
    rewrite Hrun. exists evs, idb. split; [ | exact Hdiag ].
    unfold emit, emit_all, set_indexedDB, set_translations. simpl.
    by rewrite <- !app_assoc.
Qed.

End Loading.

(** ** Switching language *)

Section Language.
Import Trace.

(** Where [setLanguage] does not have to wait, it returns after one
    notification, preceded by the warning when the language is refused. *)
Lemma setLanguage_run lang w :
  initPromise w = None ∨ loadingState w = true ∨ initPromise w = Some Fulfilled →
  let lang' := if isLanguageSupported w lang then Some lang else head (accepted w) in
  setLanguage lang w
  = (Returned tt,
     set_langChangeSubject lang'
       (set_currentLang lang'
          (emit_all
             ((if isLanguageSupported w lang then []
               else [console_warn (LanguageNotSupported lang (head (accepted w)))])
              ++ [langChange lang']) w))).
Proof.
  intros Hstate lang'. subst lang'.
  unfold setLanguage, waitForInitialization, langChangeSubject_next, isLanguageSupported.
  unfold mbind, M_bind, mret, M_ret, gets, modify, log, suspend, throw.
  destruct (loadingState w) eqn:Hl; destruct (initPromise w) as [ [ c | | ] | ] eqn:Hp;
    try (destruct Hstate as [? | [? | ?]]; congruence);
    simpl; rewrite ?Hp, ?Hl; simpl; rewrite ?Hl; try reflexivity;
    case_bool_decide;
    unfold modify, emit, emit_all, set_langChangeSubject, set_currentLang; simpl;
    rewrite <- ?app_assoc; reflexivity.
Qed.

(** After a failed initialisation the promise is rejected, and a call of
    [setLanguage] is rejected with it: nothing is set and nothing emitted. *)
Lemma setLanguage_after_failed_init lang w :
  initPromise w = Some Rejected → loadingState w = false →
  setLanguage lang w = (Thrown InitializationFailed, w).
Proof.
  intros Hp Hl. unfold setLanguage, waitForInitialization.
  unfold mbind, M_bind, mret, M_ret, gets, throw.
  rewrite Hp, Hl. simpl. by rewrite Hp.
Qed.

Lemma notifications_app (l1 l2 : list event) :
  notifications (l1 ++ l2) = notifications l1 ++ notifications l2.
Proof. unfold notifications. apply omap_app. Qed.

End Language.

(** C7.  When ready, [setLanguage] ends with the requested language as the
    current one if it is accepted, and with the first accepted language
    (after a warning) if it is not; while loading, every language passes the
    check and is taken as it is.  In both cases the call sets the current
    language and emits one notification, carrying the language it settled
    on, whether or not that language was already the current one. *)
Theorem setLanguage_postcondition (w : World) (lang : string) :
  (initPromise w = Some Fulfilled → loadingState w = false →
     let chosen := if bool_decide (lang ∈ accepted w) then Some lang
                   else head (accepted w) in
     let w' := after (setLanguage lang w) in
     result (setLanguage lang w) = Returned tt
     ∧ currentLang w' = chosen
     ∧ langChangeSubject w' = chosen
     ∧ Trace.notifications (console w') = Trace.notifications (console w) ++ [chosen]
     ∧ (lang ∉ accepted w →
          console w' = console w
                       ++ [console_warn (LanguageNotSupported lang (head (accepted w)));
                           langChange chosen]))
  ∧ (loadingState w = true →
       let w' := after (setLanguage lang w) in
       isLanguageSupported w lang = true
       ∧ result (setLanguage lang w) = Returned tt
       ∧ currentLang w' = Some lang
       ∧ langChangeSubject w' = Some lang
       ∧ Trace.notifications (console w') = Trace.notifications (console w) ++ [Some lang]).
Proof.
  split.
  - intros Hp Hl chosen w'. subst w'.
    rewrite setLanguage_run by (right; right; exact Hp).
    unfold isLanguageSupported. rewrite Hl. fold chosen.
    cbn [result after fst snd currentLang langChangeSubject console
         set_langChangeSubject set_currentLang emit_all].
    repeat split.
    + rewrite notifications_app. f_equal. by case_bool_decide.
    + intros Hnot. by rewrite bool_decide_eq_false_2.
  - intros Hl w'. subst w'.
    rewrite setLanguage_run by (right; left; exact Hl).
    unfold isLanguageSupported. rewrite Hl.
    cbn [result after fst snd currentLang langChangeSubject console
         set_langChangeSubject set_currentLang emit_all].
    repeat split. by rewrite notifications_app.
Qed.

Lemma setLanguage_postcondition_witness :
  currentLang (after (setLanguage "fr" Sample.ready)) = Some "fr"
  ∧ currentLang (after (setLanguage "de" Sample.ready)) = Some "en"
  ∧ currentLang (after (setLanguage "de" Sample.loading_world)) = Some "de"
  ∧ Trace.notifications (console (after (setLanguage "en" Sample.ready))) = [Some "en"].
Proof.
  pose proof (proj1 (setLanguage_postcondition Sample.ready "fr") eq_refl eq_refl) as Hfr.
  pose proof (proj1 (setLanguage_postcondition Sample.ready "de") eq_refl eq_refl) as Hde.
  pose proof (proj2 (setLanguage_postcondition Sample.loading_world "de") eq_refl) as Hld.
  pose proof (proj1 (setLanguage_postcondition Sample.ready "en") eq_refl eq_refl) as Hen.
  split; [ | split; [ | split ] ].
  - apply Hfr.
  - apply Hde.
  - apply Hld.
  - apply Hen.
Defined.

(** ** Initialisation *)

Section Initialisation.
Import Trace.

Lemma validateConfig_run config w :
  ∃ evs, validateConfig config w = (Returned tt, emit_all evs w)
         ∧ forallb diagnostic evs = true.
Proof.
  unfold validateConfig, mbind, M_bind, mret, M_ret, log, modify.
  case_decide; case_bool_decide.
  - exists [console_warn AcceptedLanguagesEmpty]. done.
  - exists [console_warn AcceptedLanguagesEmpty;
            console_warn (DefaultLangNotAccepted (defaultLang config))].
    split; [ | reflexivity ]. unfold emit, emit_all. simpl. by rewrite <- app_assoc.
  - exists []. split; [ | reflexivity ]. by rewrite emit_all_nil.
  - exists [console_warn (DefaultLangNotAccepted (defaultLang config))]. done.
Qed.

(** A later call of [init] returns the promise of the first and does
    nothing else. *)
Lemma init_again config w : initPromise w ≠ None → init config w = (Returned tt, w).
Proof.
  intros Hp. unfold init, mbind, M_bind, gets.
  destruct (initPromise w); [reflexivity | done].
Qed.

(** The first call of [init]: the accepted languages are recorded, the
    default language is set (and announced), and the task is left
    pending; nothing is fetched or opened yet. *)
Lemma init_first config w :
  initPromise w = None →
  ∃ evs lang',
    init config w
    = (Returned tt,
       set_initPromise (Some (Pending config))
         (set_langChangeSubject lang'
            (set_currentLang lang'
               (set_accepted (acceptedLanguages config)
                  (emit_all (evs ++ [langChange lang']) w)))))
    ∧ forallb diagnostic evs = true.
Proof.
  intros Hp. unfold init, task_begin, mbind, M_bind, gets. rewrite Hp.
  destruct (validateConfig_run config w) as (evs & Hrun & Hdiag). rewrite Hrun.
  unfold modify at 1.
  set (w1 := set_accepted (acceptedLanguages config) (emit_all evs w)).
  rewrite setLanguage_run by (left; exact Hp).
  exists (evs ++ (if isLanguageSupported w1 (defaultLang config) then []
                  else [console_warn (LanguageNotSupported (defaultLang config)
                                        (head (accepted w1)))])),
         (if isLanguageSupported w1 (defaultLang config)
          then Some (defaultLang config) else head (accepted w1)).
  split.
  - subst w1.
    unfold modify, set_initPromise, set_langChangeSubject, set_currentLang,
      set_accepted, emit_all. simpl. by rewrite <- !app_assoc.
  - rewrite forallb_app, Hdiag. by destruct (isLanguageSupported _ _).
Qed.

(** The task after its first suspension, for the steps of the code: it
    returns, with the promise fulfilled and the loading state off. *)
Lemma settle_run config w :
  initPromise w = Some (Pending config) →
  let opened := after (TranslationDBService.init config w) in
  ∃ evs idb,
    settle w
    = (Returned tt,
       set_initPromise (Some Fulfilled)
         (set_loadingState false
            (set_indexedDB idb
               (set_translations
                  (match remote w with
                   | Body data => set_all data (translations w)
                   | _ => set_all (map_to_list (snapshot opened)) (translations w)
                   end)
                  (emit_all (fetch (url config) :: evs ++ [loading false]) opened)))))
    ∧ forallb diagnostic evs = true.
Proof.
  intros Hp opened. unfold settle, mbind at 1, M_bind at 1, gets. rewrite Hp.
  unfold run_task, try_catch, task_rest, mbind, M_bind.
  assert (Hinit : TranslationDBService.init config w = (Returned tt, opened)).
  { subst opened. rewrite init_run. by destruct (openDB_fails w). }
  rewrite Hinit.
  destruct (loadTranslations_run config opened) as (evs & idb & Hrun & Hdiag).
  rewrite Hrun. exists evs, idb. split; [ | exact Hdiag ].
  assert (Hremote : remote opened = remote w).
  { subst opened. rewrite init_run. destruct (openDB_fails w); [reflexivity | ].
    simpl. by destruct (indexedDB w !! _). }
  assert (Htable : translations opened = translations w).
  { subst opened. rewrite init_run. destruct (openDB_fails w); [reflexivity | ].
    simpl. by destruct (indexedDB w !! _). }
  rewrite Hremote, Htable.
  unfold loadingState_next, mbind, M_bind, modify, log, emit, emit_all,
    set_initPromise, set_loadingState, set_indexedDB, set_translations. simpl.
  rewrite <- !app_assoc. reflexivity.
Qed.

End Initialisation.

Section Readiness.
Import Trace.

Lemma count_cons p e (l : list event) :
  count p (e :: l) = (if p e then 1 else 0) + count p l.
Proof. unfold count. simpl. by destruct (p e). Qed.

(** What opening the store leaves on the trace: one request, and the
    error when the browser refuses. *)
Lemma init_console config w :
  ∃ evs, console (after (TranslationDBService.init config w))
         = console w
           ++ openDB (default TranslationDBService.DEFAULT_DB_NAME (dbName config)) :: evs
         ∧ forallb diagnostic evs = true.
Proof.
  rewrite init_run. destruct (openDB_fails w).
  - exists [console_error ErrorInitializingDatabase]. split; [ | reflexivity ].
    simpl. by rewrite <- app_assoc.
  - exists []. split; [ | reflexivity ]. simpl. by destruct (indexedDB w !! _).
Qed.

End Readiness.

(** C6.  Whatever the remaining steps of the task do, once they have run to
    their end, by returning or by throwing, the loading state is switched
    off and the promise is settled: fulfilled after a return, rejected
    (with the error logged) after an exception; a caller that waits for the
    initialisation is not left suspended.  The steps of the code always
    return, so [init] always ends ready, with its promise fulfilled. *)
Theorem readiness_after_load :
  (∀ (steps : M unit) (w : World),
     result (steps w) = Returned tt ∨ (∃ e, result (steps w) = Thrown e) →
     let w' := after (run_task steps w) in
     result (run_task steps w) = Returned tt
     ∧ loadingState w' = false
     ∧ (result (steps w) = Returned tt → initPromise w' = Some Fulfilled)
     ∧ ((∃ e, result (steps w) = Thrown e) →
          initPromise w' = Some Rejected
          ∧ console_error ErrorInitializingService ∈ console w')
     ∧ result (waitForInitialization w') ≠ Suspended)
  ∧ (∀ (w : World) (config : TranslationConfig),
       initPromise w = Some (Pending config) →
       result (settle w) = Returned tt
       ∧ loadingState (after (settle w)) = false
       ∧ initPromise (after (settle w)) = Some Fulfilled
       ∧ result (waitForInitialization (after (settle w))) = Returned tt).
Proof.
  split.
  - intros steps w Hdone w'. subst w'.
    unfold run_task, try_catch, loadingState_next, waitForInitialization,
      mbind, M_bind, modify, gets, log, throw.
    unfold result in Hdone |- *. unfold after.
    destruct (steps w) as [ [ [] | e | | ] w1 ]; simpl in Hdone |- *.
    + split; [reflexivity | ]. split; [reflexivity | ]. split; [reflexivity | ].
      split; [ | discriminate ].
      intros [e He]. discriminate.
    + split; [reflexivity | ]. split; [reflexivity | ].
      split; [intros H; discriminate | ].
      split; [ | discriminate ].
      intros _. split; [reflexivity | ].
      apply elem_of_app. left. apply elem_of_app. right. apply list_elem_of_singleton.
      reflexivity.
    + destruct Hdone as [H | [e H]]; discriminate.
    + destruct Hdone as [H | [e H]]; discriminate.
  - intros w config Hp.
    destruct (settle_run config w Hp) as (evs & idb & Hrun & _).
    rewrite Hrun. repeat split.
Qed.

Lemma readiness_after_load_witness :
  loadingState (after (run_task (throw TypeError) Sample.loading_world)) = false
  ∧ initPromise (after (run_task (throw TypeError) Sample.loading_world)) = Some Rejected
  ∧ loadingState (after (settle Sample.loading_world)) = false
  ∧ initPromise (after (settle Sample.loading_world)) = Some Fulfilled.
Proof.
  pose proof (proj1 readiness_after_load (throw TypeError) Sample.loading_world
                (or_intror (ex_intro _ TypeError eq_refl)))
    as (_ & Hflag & _ & Hrejected & _).
  pose proof (proj2 readiness_after_load Sample.loading_world Sample.config eq_refl)
    as (_ & Hflag' & Hfulfilled & _).
  split; [exact Hflag | ].
  split; [exact (proj1 (Hrejected (ex_intro _ TypeError eq_refl))) | ].
  split; [exact Hflag' | exact Hfulfilled].
Defined.

(** C5.  A second call of [init], made while the first is pending or after
    it has completed, returns the promise of the first and changes nothing:
    whichever way the two calls are placed, the same world results, in which
    one fetch and one open of the store have been made and the one promise
    that both callers hold is fulfilled. *)
Theorem init_idempotent (w : World) (c1 c2 : TranslationConfig) :
  initPromise w = None →
  let first := after (init c1 w) in
  let final := after (settle first) in
  initPromise first = Some (Pending c1)
  ∧ init c2 first = (Returned tt, first)
  ∧ init c2 final = (Returned tt, final)
  ∧ after (settle (after (init c2 first))) = final
  ∧ after (init c2 (after (settle first))) = final
  ∧ initPromise final = Some Fulfilled
  ∧ Trace.count Trace.is_fetch (console final) = Trace.count Trace.is_fetch (console w) + 1
  ∧ Trace.count Trace.is_openDB (console final) = Trace.count Trace.is_openDB (console w) + 1.
Proof.
  intros Hp first final.
  destruct (init_first c1 w Hp) as (evs0 & lang' & Hfirst & Hdiag0).
  assert (Hpending : initPromise first = Some (Pending c1)).
  { subst first. by rewrite Hfirst. }
  assert (Hagain : init c2 first = (Returned tt, first)).
  { apply init_again. by rewrite Hpending. }
  destruct (settle_run c1 first Hpending) as (evs & idb & Hsettle & Hdiag).
  assert (Hfulfilled : initPromise final = Some Fulfilled).
  { subst final. by rewrite Hsettle. }
  assert (Hlater : init c2 final = (Returned tt, final)).
  { apply init_again. by rewrite Hfulfilled. }
  split; [exact Hpending | ].
  split; [exact Hagain | ].
  split; [exact Hlater | ].
  split; [by rewrite Hagain | ].
  split; [exact (f_equal snd Hlater) | ].
  split; [exact Hfulfilled | ].
  destruct (init_console c1 first) as (evs1 & Hopened & Hdiag1).
  assert (Hconsole : console final
                     = console w ++ evs0 ++ [langChange lang']
                       ++ openDB (default TranslationDBService.DEFAULT_DB_NAME (dbName c1))
                          :: evs1 ++ fetch (url c1) :: evs ++ [loading false]).
  { subst final. rewrite Hsettle. cbn [after snd console set_initPromise set_loadingState
      set_indexedDB set_translations emit_all]. rewrite Hopened.
    subst first. rewrite Hfirst. simpl. rewrite <- !app_assoc. reflexivity. }
  rewrite Hconsole.
  split.
  - repeat (rewrite count_app || rewrite count_cons).
    rewrite (count_diagnostic _ evs0), (count_diagnostic _ evs1), (count_diagnostic _ evs);
      try assumption; try (by intros []). simpl. unfold Trace.count at 2. simpl. lia.
  - repeat (rewrite count_app || rewrite count_cons).
    rewrite (count_diagnostic _ evs0), (count_diagnostic _ evs1), (count_diagnostic _ evs);
      try assumption; try (by intros []). simpl. unfold Trace.count at 2. simpl. lia.
Qed.

Lemma init_idempotent_witness :
  let w := new_world ∅ false (Body [("HELLO", Sample.hello)]) in
  let final := after (settle (after (init Sample.config w))) in
  init Sample.config final = (Returned tt, final)
  ∧ Trace.count Trace.is_fetch (console final) = 1
  ∧ Trace.count Trace.is_openDB (console final) = 1.
Proof.
  intros w final.
  pose proof (init_idempotent w Sample.config Sample.config eq_refl)
    as (_ & _ & Hlater & _ & _ & _ & Hfetch & Hopen).
  split; [exact Hlater | ].
  split; [exact Hfetch | exact Hopen].
Defined.

(** ** Falling back on the persistent store *)

Section Fallback.
Import Trace.

Lemma snapshot_opened config w :
  openDB_fails w = false →
  snapshot (after (TranslationDBService.init config w))
  = filter (λ kv, JS.truthy kv.1 = true)
      (TranslationDBService.store
         (default TranslationDBService.DEFAULT_DB_NAME (dbName config)) w).
Proof.
  intros Hopen. rewrite init_run, Hopen. unfold snapshot, TranslationDBService.store.
  set (name := default TranslationDBService.DEFAULT_DB_NAME (dbName config)).
  destruct (indexedDB w !! name) as [ st | ] eqn:Hst;
    cbn [after snd db set_db indexedDB set_indexedDB emit emit_all].
  - by rewrite Hst.
  - by rewrite lookup_insert_eq.
Qed.

Lemma snapshot_refused config w :
  openDB_fails w = true → db w = None →
  snapshot (after (TranslationDBService.init config w)) = ∅.
Proof.
  intros Hopen Hdb. rewrite init_run, Hopen. unfold snapshot.
  cbn [after snd db emit emit_all]. by rewrite Hdb.
Qed.

Lemma truthy_nonempty k : JS.truthy k = true ↔ k ≠ "".
Proof. destruct k; simpl; split; congruence. Qed.

Lemma set_all_nil_snapshot (t : gmap string TranslationValue) :
  set_all (map_to_list (∅ : gmap string TranslationValue)) t = t.
Proof. by rewrite map_to_list_empty. Qed.

(** With nothing in memory, every lookup answers with the key. *)
Lemma instant_empty_table w k :
  initPromise w ≠ None → translations w = ∅ →
  instant k None w = (Returned k, w).
Proof.
  intros Hp Ht. unfold instant, mbind, M_bind, gets.
  destruct (initPromise w); [ | done ].
  unfold replaceParams, mret, M_ret, getTranslation, getTranslationWith,
    getTranslationFallback.
  rewrite Ht, lookup_empty. by destruct (loadingState w).
Qed.

End Fallback.




(** ** Clearing the caches *)

Section CacheClear.
Import Trace.

(** Once [init] has completed, [waitForInitialization] finds its promise
    fulfilled and returns at once: nothing is loaded again. *)
Lemma clearModuleCache_run w :
  initPromise w = Some Fulfilled →
  clearModuleCache w
  = (Returned tt, set_translations ∅ (after (TranslationDBService.clearCache w))).
Proof.
  intros Hp. unfold clearModuleCache, waitForInitialization, mbind, M_bind, modify, gets.
  rewrite clearCache_run.
  destruct (db w); cbn [after snd initPromise set_translations set_indexedDB emit emit_all];
    by rewrite Hp.
Qed.

Lemma clearAllCache_run w :
  initPromise w = Some Fulfilled →
  clearAllCache w
  = (Returned tt, set_translations ∅ (after (TranslationDBService.clearDB w))).
Proof.
  intros Hp. unfold clearAllCache, waitForInitialization, mbind, M_bind, modify, gets.
  rewrite clearDB_run.
  destruct (db w);
    cbn [after snd initPromise set_translations set_indexedDB set_db emit emit_all];
    by rewrite Hp.
Qed.

(** After either cache-clear on a ready service the table is empty, the
    loading state has not moved and no request has been sent. *)
Lemma cache_clear_leaves_table_empty w :
  initPromise w = Some Fulfilled →
  (translations (after (clearModuleCache w)) = ∅
   ∧ loadingState (after (clearModuleCache w)) = loadingState w
   ∧ count is_fetch (console (after (clearModuleCache w))) = count is_fetch (console w)
   ∧ count is_loading (console (after (clearModuleCache w))) = count is_loading (console w))
  ∧ (translations (after (clearAllCache w)) = ∅
     ∧ loadingState (after (clearAllCache w)) = loadingState w
     ∧ count is_fetch (console (after (clearAllCache w))) = count is_fetch (console w)
     ∧ count is_loading (console (after (clearAllCache w))) = count is_loading (console w)).
Proof.
  intros Hp. rewrite clearModuleCache_run, clearAllCache_run by exact Hp.
  rewrite clearCache_run, clearDB_run.
  split; destruct (db w); cbn [after snd translations loadingState console
    set_translations set_indexedDB set_db emit emit_all];
    repeat split; rewrite ?count_app; unfold count; simpl; lia.
Qed.

End CacheClear.

(** C4 does not hold of the code.  The service below has loaded "HELLO"
    from the remote endpoint and answers "Hello".  After [clearModuleCache],
    and likewise after [clearAllCache], the table is empty and stays so: the
    endpoint, still serving the same table, has been asked only the one time
    of [init], the loading state has been switched only that one time, and
    the lookup of "HELLO" now answers with the key. *)
Theorem cache_clear_does_not_reload :
  let w := after (settle (after (init Sample.config
                   (new_world ∅ false (Body [("HELLO", Sample.hello)]))))) in
  (result (instant "HELLO" None w) = Returned "Hello"
   ∧ Trace.count Trace.is_fetch (console w) = 1
   ∧ Trace.count Trace.is_loading (console w) = 1)
  ∧ (let w' := after (clearModuleCache w) in
     result (clearModuleCache w) = Returned tt
     ∧ translations w' = ∅
     ∧ loadingState w' = false
     ∧ Trace.count Trace.is_fetch (console w') = 1
     ∧ Trace.count Trace.is_loading (console w') = 1
     ∧ result (instant "HELLO" None w') = Returned "HELLO")
  ∧ (let w' := after (clearAllCache w) in
     result (clearAllCache w) = Returned tt
     ∧ translations w' = ∅
     ∧ loadingState w' = false
     ∧ Trace.count Trace.is_fetch (console w') = 1
     ∧ Trace.count Trace.is_loading (console w') = 1
     ∧ result (instant "HELLO" None w') = Returned "HELLO").
Proof. repeat split; vm_compute; reflexivity. Qed.

(** ** The scenarios of the specification *)

(** An open adapter gives back what was put, and nothing after a clear. *)
Lemma put_get_roundtrip (w : World) (conn key : string) (value : TranslationValue) :
  db w = Some conn →
  let stored := after (TranslationDBService.saveToCache key value w) in
  result (TranslationDBService.getFromCache key stored) = Returned (Some value)
  ∧ result (TranslationDBService.getFromCache key
              (after (TranslationDBService.clearCache stored))) = Returned None.
Proof.
  intros Hdb stored. subst stored.
  rewrite saveToCache_run, Hdb. cbn [after snd].
  rewrite clearCache_run, !getFromCache_run.
  cbn [db set_indexedDB]. rewrite Hdb. cbn [after snd db set_indexedDB result fst].
  unfold TranslationDBService.store. cbn [indexedDB set_indexedDB result fst].
  split; by simplify_map_eq.
Qed.

(** The remote endpoint answers: "HELLO" is served in the current language
    and a key without a record is returned as it is. *)
Example scenario_remote :
  let w := after (settle (after (init Sample.config
                   (new_world ∅ false (Body [("HELLO", Sample.hello)]))))) in
  result (instant "HELLO" None w) = Returned "Hello"
  ∧ result (instant "HELLO" None (after (setLanguage "fr" w))) = Returned "Bonjour"
  ∧ result (instant "MISSING" None w) = Returned "MISSING"
  ∧ TranslationDBService.store "translations-db" w !! "HELLO" = Some Sample.hello.
Proof. repeat split; vm_compute; reflexivity. Qed.

(** The remote endpoint is down and the store holds "HELLO" from an earlier
    run: while the task is pending the lookup has nothing to offer, and once
    it has completed "HELLO" is served from the store. *)
Example scenario_persisted :
  let idb : gmap string (gmap string TranslationValue) :=
    {[ "translations-db" := {[ "HELLO" := [("en", "Hello")] ]} ]} in
  let pending := after (init Sample.config (new_world idb false NetworkError)) in
  result (instant "HELLO" None pending) = Returned "HELLO"
  ∧ result (instant "HELLO" None (after (settle pending))) = Returned "Hello".
Proof. repeat split; vm_compute; reflexivity. Qed.

(** The substitutions given as examples. *)
Example scenario_substitute (w : World) :
  result (replaceParams "Hello {name}" (Some [("name", "Eva")]) w) = Returned "Hello Eva"
  ∧ result (replaceParams "Hi {x}" (Some []) w) = Returned "Hi {x}"
  ∧ ∀ s, result (replaceParams s None w) = Returned s.
Proof. repeat split. Qed.

(** * Further properties of the code *)

(** ** The store adapter on an open connection *)

(** X1.  Put then get gives the record back, the other keys are as they were,
    and after a clear no key is found. *)
Theorem adapter_round_trip (w : World) (conn key : string) (value : TranslationValue) :
  db w = Some conn →
  let stored := after (TranslationDBService.saveToCache key value w) in
  let cleared := after (TranslationDBService.clearCache stored) in
  TranslationDBService.getFromCache key stored = (Returned (Some value), stored)
  ∧ (∀ other, other ≠ key →
       result (TranslationDBService.getFromCache other stored)
       = result (TranslationDBService.getFromCache other w))
  ∧ (∀ any, TranslationDBService.getFromCache any cleared = (Returned None, cleared))
  ∧ console cleared = console w.
Proof.
  intros Hdb stored cleared. subst cleared stored.
  rewrite saveToCache_run, Hdb. cbn [after snd].
  rewrite clearCache_run. cbn [db set_indexedDB]. rewrite Hdb. cbn [after snd].
  split; [ | split; [ | split ] ].
  - rewrite getFromCache_run. cbn [db set_indexedDB]. rewrite Hdb.
    unfold TranslationDBService.store. cbn [indexedDB set_indexedDB].
    by simplify_map_eq.
  - intros other Hother. rewrite !getFromCache_run. cbn [db set_indexedDB].
    rewrite Hdb. unfold TranslationDBService.store. cbn [indexedDB set_indexedDB result fst].
    by simplify_map_eq.
  - intros any. rewrite getFromCache_run. cbn [db set_indexedDB]. rewrite Hdb.
    unfold TranslationDBService.store. cbn [indexedDB set_indexedDB].
    by simplify_map_eq.
  - reflexivity.
Qed.

Lemma adapter_round_trip_witness :
  let w := after (TranslationDBService.init Sample.config (new_world ∅ false NetworkError)) in
  let stored := after (TranslationDBService.saveToCache "HELLO" Sample.hello w) in
  TranslationDBService.getFromCache "HELLO" stored = (Returned (Some Sample.hello), stored)
  ∧ result (TranslationDBService.getFromCache "HELLO"
              (after (TranslationDBService.clearCache stored))) = Returned None.
Proof.
  intros w stored.
  pose proof (adapter_round_trip w "translations-db" "HELLO" Sample.hello eq_refl)
    as (Hget & _ & Hcleared & _).
  split; [exact Hget | exact (f_equal result (Hcleared "HELLO"))].
Defined.



(** X3.  Opening the store keeps what every database holds; the database asked
    for exists afterwards and is the one the adapter is connected to.  When
    the browser refuses, the adapter is left as it was, with the error
    logged. *)
Theorem open_keeps_content (w : World) (config : TranslationConfig) :
  let name := default TranslationDBService.DEFAULT_DB_NAME (dbName config) in
  let w' := after (TranslationDBService.init config w) in
  result (TranslationDBService.init config w) = Returned tt
  ∧ (∀ n, TranslationDBService.store n w' = TranslationDBService.store n w)
  ∧ (∀ n, is_Some (indexedDB w !! n) → is_Some (indexedDB w' !! n))
  ∧ (if openDB_fails w
     then db w' = db w ∧ indexedDB w' = indexedDB w
          ∧ console w' = console w ++ [openDB name; console_error ErrorInitializingDatabase]
     else db w' = Some name ∧ is_Some (indexedDB w' !! name)
          ∧ console w' = console w ++ [openDB name]).
Proof.
  intros name w'. subst w'. rewrite init_run. fold name.
  destruct (openDB_fails w).
  - cbn [result after fst snd]. split; [reflexivity | ]. split; [reflexivity | ].
    split; [done | ]. split; [reflexivity | ]. split; [reflexivity | ].
    simpl. by rewrite <- app_assoc.
  - destruct (indexedDB w !! name) as [ st | ] eqn:Hst;
      cbn [result after fst snd]; (split; [reflexivity | ]).
    + split; [reflexivity | ]. split; [done | ].
      split; [reflexivity | ]. split; [ | reflexivity ].
      cbn [indexedDB set_db emit emit_all]. by rewrite Hst.
    + unfold TranslationDBService.store. cbn [indexedDB set_db set_indexedDB emit emit_all].
      split; [ | split ].
      * intros n. destruct (decide (name = n)) as [<- | Hn].
        -- by rewrite lookup_insert_eq, Hst.
        -- by rewrite lookup_insert_ne.
      * intros n Hsome. destruct (decide (name = n)) as [<- | Hn].
        -- by rewrite lookup_insert_eq.
        -- by rewrite lookup_insert_ne.
      * split; [reflexivity | ]. split; [ | reflexivity ].
        by rewrite lookup_insert_eq.
Qed.

(** X4.  Clear empties the store of the open connection and nothing else; drop
    removes that database, leaves the others, and closes the adapter, which
    from then on answers get-all with nothing. *)
Theorem clear_and_drop_scope (w : World) (conn : string) :
  db w = Some conn →
  let cleared := after (TranslationDBService.clearCache w) in
  let dropped := after (TranslationDBService.clearDB w) in
  (db cleared = Some conn
   ∧ TranslationDBService.store conn cleared = ∅
   ∧ is_Some (indexedDB cleared !! conn)
   ∧ ∀ n, n ≠ conn → indexedDB cleared !! n = indexedDB w !! n)
  ∧ (db dropped = None
     ∧ indexedDB dropped !! conn = None
     ∧ (∀ n, n ≠ conn → indexedDB dropped !! n = indexedDB w !! n)
     ∧ console dropped = console w ++ [deleteDB conn]
     ∧ result (TranslationDBService.getAllFromCache dropped) = Returned ∅).
Proof.
  intros Hdb cleared dropped. subst cleared dropped.
  rewrite clearCache_run, clearDB_run, Hdb. cbn [after snd].
  split.
  - unfold TranslationDBService.store. cbn [db indexedDB set_indexedDB].
    split; [exact Hdb | ]. split; [by rewrite lookup_insert_eq | ].
    split; [by rewrite lookup_insert_eq | ].
    intros n Hn. by rewrite lookup_insert_ne.
  - cbn [db indexedDB set_db set_indexedDB emit emit_all console].
    split; [reflexivity | ]. split; [by rewrite lookup_delete_eq | ].
    split; [intros n Hn; by rewrite lookup_delete_ne | ].
    split; [reflexivity | ].
    by rewrite getAllFromCache_run.
Qed.

Lemma clear_and_drop_scope_witness :
  let idb : gmap string (gmap string TranslationValue) :=
    {[ "translations-db" := {[ "HELLO" := Sample.hello ]};
       "other-db" := {[ "BYE" := [("en", "Bye")] ]} ]} in
  let w := after (TranslationDBService.init Sample.config (new_world idb false NetworkError)) in
  TranslationDBService.store "translations-db" (after (TranslationDBService.clearCache w)) = ∅
  ∧ indexedDB (after (TranslationDBService.clearDB w)) !! "other-db"
    = Some {[ "BYE" := [("en", "Bye")] ]}.
Proof.
  intros idb w.
  pose proof (clear_and_drop_scope w "translations-db" eq_refl)
    as ((_ & Hcleared & _) & (_ & _ & Hothers & _)).
  split; [exact Hcleared | ].
  rewrite Hothers by discriminate. reflexivity.
Defined.

Lemma open_keeps_content_witness :
  let idb : gmap string (gmap string TranslationValue) :=
    {[ "translations-db" := {[ "HELLO" := Sample.hello ]} ]} in
  TranslationDBService.store "translations-db"
    (after (TranslationDBService.init Sample.config (new_world idb false NetworkError)))
  = {[ "HELLO" := Sample.hello ]}.
Proof.
  intros idb.
  pose proof (open_keeps_content (new_world idb false NetworkError) Sample.config)
    as (_ & Hkept & _).
  rewrite Hkept. reflexivity.
Defined.

(** ** Lookups *)

Lemma anyAvailable_get (r : TranslationValue) v :
  anyAvailable r = Some v → ∃ l, JS.get r l = Some v.
Proof.
  unfold anyAvailable. destruct r as [ | [l v'] rest ]; simpl; [discriminate | ].
  intros H. by exists l.
Qed.

Lemma getTranslationFallback_source w k :
  getTranslationFallback w k = k
  ∨ ∃ r l, translations w !! k = Some r ∧ JS.get r l = Some (getTranslationFallback w k).
Proof.
  unfold getTranslationFallback.
  destruct (translations w !! k) as [ r | ] eqn:Hrec; [ | by left ].
  assert (Hany : default k (anyAvailable r) = k
                 ∨ ∃ l, JS.get r l = Some (default k (anyAvailable r))).
  { destruct (anyAvailable r) as [ v | ] eqn:Hany; [ | by left ].
    right. by apply anyAvailable_get. }
  destruct (JS.get r (JS.ToString (head (accepted w)))) as [ v | ] eqn:Hdefault.
  - destruct (JS.truthy v).
    + right. exists r, (JS.ToString (head (accepted w))). done.
    + destruct Hany as [-> | [l Hl]]; [by left | right; by exists r, l].
  - destruct Hany as [-> | [l Hl]]; [by left | right; by exists r, l].
Qed.




(** ** Parameter substitution on any input *)

Section Passes.
Import Template.

Variable ps : list (string * string).

Let one_pass (str param : string) : M string :=
  match JS.placeholder_RegExp param with
  | JS.Literal regex => mret (JS.replace regex (JS.ToString (JS.get ps param)) str)
  | JS.NothingToRepeat => throw SyntaxError
  | JS.NotLiteral => uninterpreted
  end.

(** The passes do not look at the world and leave it as it is. *)
Lemma reduce_passes_pure (ns : list string) (str : string) :
  ∃ o, ∀ w, reduce one_pass ns str w = (o, w).
Proof.
  revert str. induction ns as [ | n ns IH ]; intros str.
  - by exists (Returned str).
  - cbn [reduce]. unfold mbind, M_bind, one_pass at 1.
    destruct (JS.placeholder_RegExp n) as [ regex | | ].
    + destruct (IH (JS.replace regex (JS.ToString (JS.get ps n)) str)) as (o & Ho).
      exists o. intros w. unfold mret, M_ret. apply Ho.
    + by exists (Thrown SyntaxError).
    + by exists Uninterpreted.
Qed.

(** Text without an opening brace goes through every literal one_pass. *)
Lemma reduce_passes_text (ns : list string) (str : string) (w : World) :
  occurs "{" str = false →
  Forall (λ n, plain_name n = true) ns →
  reduce one_pass ns str w = (Returned str, w).
Proof.
  intros Hstr Hns. induction Hns as [ | n ns Hn Hns IH ]; [reflexivity | ].
  cbn [reduce]. unfold mbind, M_bind, one_pass at 1.
  rewrite (plain_name_literal n Hn). unfold mret, M_ret, JS.replace.
  pose proof (replace_scan_text n (JS.ToString (JS.get ps n)) str "" "" Hstr) as Hscan.
  rewrite !string_app_nil_r in Hscan. rewrite Hscan. exact IH.
Qed.

(** A name of the shape of a quantifier stops the passes with an
    exception, unless an earlier name is not a literal pattern. *)
Lemma reduce_passes_throw (ns : list string) (str : string) (w : World) :
  Forall (λ n, JS.has_syntax n = false) ns →
  Exists (λ n, JS.quantifier_body false n = true) ns →
  reduce one_pass ns str w = (Thrown SyntaxError, w).
Proof.
  intros Hsyntax Hquant. revert str.
  induction Hsyntax as [ | n ns Hn Hns IH ]; intros str.
  - by apply Exists_nil in Hquant.
  - cbn [reduce]. unfold mbind, M_bind, one_pass at 1, JS.placeholder_RegExp.
    rewrite Hn. destruct (JS.quantifier_body false n) eqn:Hq; [reflexivity | ].
    unfold mret, M_ret. apply IH.
    apply Exists_cons in Hquant as [Hhere | Hlater]; [congruence | exact Hlater].
Qed.

End Passes.

Lemma replaceParams_pure (translation : string) params :
  ∃ o, ∀ w, replaceParams translation params w = (o, w).
Proof.
  destruct params as [ ps | ]; [ | by exists (Returned translation) ].
  apply reduce_passes_pure.
Qed.

(** X7.  Once [init] has been called, [instant] only reads: whatever it answers,
    and also when it throws, it leaves the service, the store and the
    console as they were.  Before [init] it adds its warning and nothing
    else. *)
Theorem instant_reads_only (w : World) (key : string)
    (params : option (list (string * string))) :
  (initPromise w ≠ None → after (instant key params w) = w)
  ∧ (initPromise w = None →
       after (instant key params w) = emit (console_warn ServiceNotInitialized) w).
Proof.
  unfold instant, mbind, M_bind, gets. split; intros Hp.
  - destruct (initPromise w); [ | done ].
    match goal with |- context [ replaceParams ?t params ] =>
      destruct (replaceParams_pure t params) as (o & Ho) end.
    by rewrite Ho.
  - by rewrite Hp.
Qed.

Lemma instant_reads_only_witness :
  after (instant "COUNT" (Some [("0", "3")]) Sample.ready) = Sample.ready
  ∧ after (instant "HELLO" None Sample.loading_world) = Sample.loading_world.
Proof.
  split.
  - apply (proj1 (instant_reads_only Sample.ready "COUNT" (Some [("0", "3")]))).
    discriminate.
  - apply (proj1 (instant_reads_only Sample.loading_world "HELLO" None)). discriminate.
Defined.

(** X8.  A resolved string without an opening brace is returned as it is by every
    set of parameters whose names are literal patterns, whatever their
    values hold. *)
Theorem instant_text_without_placeholder (w : World) (key : string)
    (ps : list (string * string)) :
  initPromise w ≠ None →
  let resolved := if loadingState w then getTranslationFallback w key
                  else getTranslation w key in
  Template.occurs "{" resolved = false →
  Forall (λ n, Template.plain_name n = true) (JS.keys ps) →
  instant key (Some ps) w = (Returned resolved, w).
Proof.
  intros Hp resolved Hresolved Hnames.
  unfold instant, mbind, M_bind, gets.
  destruct (initPromise w); [ | done ].
  fold resolved. unfold replaceParams. by apply reduce_passes_text.
Qed.

Lemma instant_text_without_placeholder_witness :
  instant "HELLO" (Some [("name", "$& {name}")]) Sample.ready
  = (Returned "Hello", Sample.ready).
Proof.
  apply (instant_text_without_placeholder Sample.ready "HELLO" [("name", "$& {name}")]).
  - discriminate.
  - reflexivity.
  - repeat constructor.
Defined.

(** X9.  A parameter whose name is a number ([n], [n,] or [n,m]) makes [instant]
    throw a [SyntaxError] once [init] has been called, whatever the key and
    whether or not the resolved string holds a placeholder, as long as the
    names hold no other pattern syntax. *)
Theorem instant_numeric_parameter_throws (w : World) (key : string)
    (ps : list (string * string)) :
  initPromise w ≠ None →
  Forall (λ n, JS.has_syntax n = false) (JS.keys ps) →
  Exists (λ n, JS.quantifier_body false n = true) (JS.keys ps) →
  instant key (Some ps) w = (Thrown SyntaxError, w).
Proof.
  intros Hp Hsyntax Hquant.
  unfold instant, mbind, M_bind, gets.
  destruct (initPromise w); [ | done ].
  unfold replaceParams. by apply reduce_passes_throw.
Qed.

Lemma instant_numeric_parameter_throws_witness :
  instant "HELLO" (Some [("name", "Eva"); ("1", "one")]) Sample.ready
  = (Thrown SyntaxError, Sample.ready).
Proof.
  apply (instant_numeric_parameter_throws Sample.ready "HELLO"
           [("name", "Eva"); ("1", "one")]).
  - discriminate.
  - repeat constructor.
  - apply Exists_cons. right. apply Exists_cons. left. reflexivity.
Defined.

(** ** Lookups and the current language *)

(** X10.  While the service is loading, [instant] does not depend on the current
    language: a call of [setLanguage] changes none of its answers. *)
Theorem instant_while_loading_ignores_language (w : World) (lang key : string)
    (params : option (list (string * string))) :
  loadingState w = true → initPromise w ≠ None →
  result (setLanguage lang w) = Returned tt
  ∧ currentLang (after (setLanguage lang w)) = Some lang
  ∧ result (instant key params (after (setLanguage lang w)))
    = result (instant key params w).
Proof.
  intros Hl Hp. rewrite setLanguage_run by (right; left; exact Hl).
  cbn [result after fst snd currentLang set_langChangeSubject set_currentLang].
  unfold isLanguageSupported. rewrite Hl.
  split; [reflexivity | ]. split; [reflexivity | ].
  set (w' := set_langChangeSubject (Some lang)
               (set_currentLang (Some lang) (emit_all ([] ++ [langChange (Some lang)]) w))).
  unfold instant, mbind, M_bind, gets.
  change (initPromise w') with (initPromise w).
  destruct (initPromise w); [ | done ].
  change (loadingState w') with (loadingState w). rewrite Hl.
  change (getTranslationFallback w' key) with (getTranslationFallback w key).
  destruct (replaceParams_pure (getTranslationFallback w key) params) as (o & Ho).
  by rewrite !Ho.
Qed.

Lemma instant_while_loading_ignores_language_witness :
  result (instant "HELLO" None (after (setLanguage "fr" Sample.loading_world)))
  = Returned "Hello".
Proof.
  pose proof (instant_while_loading_ignores_language Sample.loading_world "fr" "HELLO" None
                eq_refl ltac:(discriminate)) as (_ & _ & H).
  rewrite H. reflexivity.
Defined.

(** X11.  On a ready service, after a switch to an accepted language every key
    whose record has an entry for that language is served with it. *)
Theorem switch_then_lookup (w : World) (lang key : string)
    (r : TranslationValue) (v : string) :
  initPromise w = Some Fulfilled → loadingState w = false →
  lang ∈ accepted w →
  translations w !! key = Some r → JS.get r lang = Some v →
  let w' := after (setLanguage lang w) in
  instant key None w' = (Returned v, w')
  ∧ translate key w' = (Returned v, w').
Proof.
  intros Hp Hl Hin Hrec Hentry w'. subst w'.
  rewrite setLanguage_run by (right; right; exact Hp).
  unfold isLanguageSupported. rewrite Hl, bool_decide_eq_true_2 by exact Hin.
  cbn [after snd].
  set (w' := set_langChangeSubject (Some lang)
               (set_currentLang (Some lang) (emit_all ([] ++ [langChange (Some lang)]) w))).
  unfold instant, translate, waitForInitialization, mbind, M_bind, gets, mret, M_ret.
  change (initPromise w') with (initPromise w). rewrite Hp.
  change (loadingState w') with (loadingState w). rewrite Hl.
  unfold replaceParams, getTranslation, getTranslationWith.
  change (translations w') with (translations w).
  change (currentLang w') with (Some lang).
  rewrite Hrec. cbn [JS.ToString]. by rewrite Hentry.
Qed.

Lemma switch_then_lookup_witness :
  instant "HELLO" None (after (setLanguage "fr" Sample.ready))
  = (Returned "Bonjour", after (setLanguage "fr" Sample.ready)).
Proof.
  apply (switch_then_lookup Sample.ready "fr" "HELLO" Sample.hello "Bonjour");
    try reflexivity.
  apply elem_of_cons. right. apply elem_of_cons. by left.
Defined.

(** X12.  [translate] answers as [instant] without parameters does once the
    service is ready, and changes nothing; while the task of [init] is
    pending it is left waiting; before [init] it warns and answers with the
    lookup as it stands. *)
Theorem translate_by_state (w : World) (key : string) :
  (initPromise w = Some Fulfilled →
     translate key w = (Returned (getTranslation w key), w)
     ∧ (loadingState w = false → instant key None w = translate key w))
  ∧ (∀ config, initPromise w = Some (Pending config) →
       translate key w = (Suspended, w))
  ∧ (initPromise w = None →
       translate key w
       = (Returned (getTranslation w key),
          emit (console_warn NotInitializedUsingFallback) w)).
Proof.
  unfold translate, instant, waitForInitialization, mbind, M_bind, gets, suspend, log, modify.
  split; [ | split ].
  - intros Hp. rewrite Hp. split; [reflexivity | ].
    intros Hl. rewrite Hl. reflexivity.
  - intros config Hp. by rewrite Hp.
  - intros Hp. by rewrite Hp.
Qed.

Lemma translate_by_state_witness :
  translate "HELLO" Sample.ready = (Returned "Hello", Sample.ready)
  ∧ translate "HELLO" Sample.loading_world = (Suspended, Sample.loading_world).
Proof.
  pose proof (translate_by_state Sample.ready "HELLO") as (Hready & _ & _).
  pose proof (translate_by_state Sample.loading_world "HELLO") as (_ & Hpending & _).
  split.
  - exact (proj1 (Hready eq_refl)).
  - exact (Hpending Sample.config eq_refl).
Defined.

(** ** A fetch that succeeds *)

(** The fields of the coordinator are not touched by the adapter. *)
Lemma open_frame config w :
  let w' := after (TranslationDBService.init config w) in
  currentLang w' = currentLang w ∧ accepted w' = accepted w
  ∧ translations w' = translations w ∧ loadingState w' = loadingState w
  ∧ langChangeSubject w' = langChangeSubject w ∧ initPromise w' = initPromise w
  ∧ openDB_fails w' = openDB_fails w ∧ remote w' = remote w.
Proof.
  intros w'. subst w'. rewrite init_run.
  destruct (openDB_fails w) eqn:Hfails; [by repeat split | ].
  destruct (indexedDB w !! _); by repeat split.
Qed.

Lemma open_connected config w :
  openDB_fails w = false →
  let name := default TranslationDBService.DEFAULT_DB_NAME (dbName config) in
  let w' := after (TranslationDBService.init config w) in
  db w' = Some name
  ∧ indexedDB w' !! name = Some (TranslationDBService.store name w).
Proof.
  intros Hfails name w'. subst w'. rewrite init_run, Hfails. fold name.
  unfold TranslationDBService.store.
  destruct (indexedDB w !! name) as [ st | ] eqn:Hst;
    cbn [after snd db indexedDB set_db set_indexedDB emit emit_all default].
  - by rewrite Hst.
  - by rewrite lookup_insert_eq.
Qed.

Lemma open_refused config w :
  openDB_fails w = true →
  let w' := after (TranslationDBService.init config w) in
  db w' = db w ∧ indexedDB w' = indexedDB w.
Proof. intros Hfails w'. subst w'. rewrite init_run, Hfails. by split. Qed.

(** The saves on an open connection: every entry is put in the store and
    set in the table. *)
Lemma saveAll_open data w conn st :
  db w = Some conn → indexedDB w !! conn = Some st →
  saveAll data w
  = (Returned tt,
     set_indexedDB (<[conn := set_all data st]> (indexedDB w))
       (set_translations (set_all data (translations w)) w)).
Proof.
  revert w st. induction data as [ | [key value] data IH ]; intros w st Hdb Hst.
  - cbn [saveAll set_all foldl]. rewrite insert_id by exact Hst. by destruct w.
  - cbn [saveAll]. unfold mbind, M_bind. rewrite saveToCache_run, Hdb. unfold modify.
    unfold TranslationDBService.store. rewrite Hst. cbn [default].
    erewrite IH.
    + cbn [indexedDB translations set_indexedDB set_translations].
      rewrite insert_insert_eq. reflexivity.
    + exact Hdb.
    + cbn [indexedDB set_indexedDB set_translations]. by rewrite lookup_insert_eq.
Qed.

(** The saves without a connection: every entry is set in the table, the
    browser's databases are as they were, and each entry costs the warning
    and the error of a failed save. *)
Lemma saveAll_closed data w :
  db w = None →
  saveAll data w
  = (Returned tt,
     set_translations (set_all data (translations w))
       (emit_all (data ≫= λ _, [console_warn DatabaseNotInitialized;
                                console_error ErrorSaving]) w)).
Proof.
  revert w. induction data as [ | [key value] data IH ]; intros w Hdb.
  - cbn [saveAll set_all foldl mbind list_bind]. rewrite emit_all_nil. by destruct w.
  - cbn [saveAll]. unfold mbind at 1 2, M_bind. rewrite saveToCache_run, Hdb.
    unfold modify. rewrite IH by exact Hdb.
    cbn [mbind list_bind]. unfold emit, emit_all, set_translations. simpl.
    by rewrite <- !app_assoc.
Qed.

Lemma set_all_elem (data : list (string * TranslationValue))
    (t : gmap string TranslationValue) k v :
  NoDup (JS.keys data) → (k, v) ∈ data → set_all data t !! k = Some v.
Proof.
  intros Hnd Hin. rewrite set_all_lookup by exact Hnd.
  by rewrite (elem_of_list_to_map_1 data k v Hnd Hin).
Qed.

Lemma set_all_other (data : list (string * TranslationValue))
    (t : gmap string TranslationValue) k :
  NoDup (JS.keys data) → k ∉ JS.keys data → set_all data t !! k = t !! k.
Proof.
  intros Hnd Hout. rewrite set_all_lookup by exact Hnd.
  by rewrite (not_elem_of_list_to_map_1 data k Hout).
Qed.

(** The pending task when the fetch succeeds and the store opens. *)
Lemma settle_fetched config w data :
  initPromise w = Some (Pending config) → remote w = Body data →
  openDB_fails w = false →
  let name := default TranslationDBService.DEFAULT_DB_NAME (dbName config) in
  let opened := after (TranslationDBService.init config w) in
  settle w
  = (Returned tt,
     set_initPromise (Some Fulfilled)
       (set_loadingState false
          (set_indexedDB
             (<[name := set_all data (TranslationDBService.store name w)]>
                (indexedDB opened))
             (set_translations (set_all data (translations w))
                (emit_all [fetch (url config); loading false] opened))))).
Proof.
  intros Hp Hremote Hfails name opened.
  destruct (open_frame config w) as (_ & _ & Htable & _ & _ & _ & _ & Hremote').
  destruct (open_connected config w Hfails) as (Hdb & Hstore).
  fold name opened in Htable, Hremote', Hdb, Hstore.
  unfold settle, mbind at 1, M_bind at 1, gets. rewrite Hp.
  unfold run_task, try_catch, task_rest, mbind at 1 2, M_bind.
  assert (Hinit : TranslationDBService.init config w = (Returned tt, opened)).
  { subst opened. rewrite init_run. by destruct (openDB_fails w). }
  rewrite Hinit.
  unfold loadTranslations, try_catch, mbind, M_bind, log, modify, gets.
  change (remote (emit (fetch (url config)) opened)) with (remote opened).
  rewrite Hremote', Hremote.
  rewrite (saveAll_open data _ name (TranslationDBService.store name w));
    [ | exact Hdb | exact Hstore ].
  cbn [translations indexedDB emit emit_all]. rewrite Htable.
  unfold loadingState_next, mbind, M_bind, modify, log, emit, emit_all,
    set_initPromise, set_loadingState, set_indexedDB, set_translations. simpl.
  by rewrite <- !app_assoc.
Qed.

(** X13.  After a fetch that succeeds with the store open, memory and the store
    hold every entry of the answer, and the keys the answer does not have
    keep what memory and the store held. *)
Theorem fetched_entries_in_memory_and_store (w : World) (config : TranslationConfig)
    (data : list (string * TranslationValue)) :
  initPromise w = Some (Pending config) → remote w = Body data →
  openDB_fails w = false → NoDup (JS.keys data) →
  let name := default TranslationDBService.DEFAULT_DB_NAME (dbName config) in
  let w' := after (settle w) in
  result (settle w) = Returned tt
  ∧ (∀ k v, (k, v) ∈ data →
       translations w' !! k = Some v ∧ TranslationDBService.store name w' !! k = Some v)
  ∧ (∀ k, k ∉ JS.keys data →
       translations w' !! k = translations w !! k
       ∧ TranslationDBService.store name w' !! k = TranslationDBService.store name w !! k).
Proof.
  intros Hp Hremote Hfails Hnd name w'. subst w'.
  rewrite (settle_fetched config w data Hp Hremote Hfails). fold name.
  cbn [result after fst snd].
  match goal with |- context [ translations ?final ] => set (w' := final) end.
  assert (Htable : translations w' = set_all data (translations w)) by reflexivity.
  assert (Hstore : TranslationDBService.store name w'
                   = set_all data (TranslationDBService.store name w)).
  { unfold TranslationDBService.store at 1.
    change (indexedDB w') with
      (<[name := set_all data (TranslationDBService.store name w)]>
         (indexedDB (after (TranslationDBService.init config w)))).
    by rewrite lookup_insert_eq. }
  rewrite Htable, Hstore.
  split; [reflexivity | ]. split.
  - intros k v Hin. split; by apply set_all_elem.
  - intros k Hout. split; by apply set_all_other.
Qed.

Lemma fetched_entries_in_memory_and_store_witness :
  let w := after (init Sample.config (new_world ∅ false (Body [("HELLO", Sample.hello)]))) in
  translations (after (settle w)) !! "HELLO" = Some Sample.hello
  ∧ TranslationDBService.store "translations-db" (after (settle w)) !! "HELLO"
    = Some Sample.hello.
Proof.
  intros w.
  pose proof (fetched_entries_in_memory_and_store w Sample.config
                [("HELLO", Sample.hello)] eq_refl eq_refl eq_refl) as H.
  assert (Hnd : NoDup (JS.keys [("HELLO", Sample.hello)])).
  { apply NoDup_cons. split; [apply not_elem_of_nil | apply NoDup_nil_2]. }
  destruct (H Hnd) as (_ & Hin & _).
  apply Hin. apply list_elem_of_singleton. reflexivity.
Defined.

(** X14.  When the store cannot be opened, a fetch that succeeds still puts every
    entry of the answer in memory; nothing is persisted, and each entry
    leaves the warning and the error of its failed save on the console. *)
Theorem fetched_entries_without_store (w : World) (config : TranslationConfig)
    (data : list (string * TranslationValue)) :
  initPromise w = Some (Pending config) → remote w = Body data →
  openDB_fails w = true → db w = None → NoDup (JS.keys data) →
  let w' := after (settle w) in
  result (settle w) = Returned tt
  ∧ initPromise w' = Some Fulfilled
  ∧ (∀ k v, (k, v) ∈ data → translations w' !! k = Some v)
  ∧ indexedDB w' = indexedDB w
  ∧ Trace.count Host.is_failed_save (console w')
    = Trace.count Host.is_failed_save (console w)
      + List.length data.
Proof.
  intros Hp Hremote Hfails Hdb Hnd w'. subst w'.
  destruct (open_frame config w) as (_ & _ & Htable & _ & _ & _ & _ & Hremote').
  destruct (open_refused config w Hfails) as (Hdb' & Hidb).
  set (opened := after (TranslationDBService.init config w)) in *.
  assert (Hconsole : console opened
                     = console w ++ [openDB (default TranslationDBService.DEFAULT_DB_NAME
                                               (dbName config));
                                     console_error ErrorInitializingDatabase]).
  { subst opened. rewrite init_run, Hfails. simpl. by rewrite <- app_assoc. }
  assert (Hrun : settle w
    = (Returned tt,
       set_initPromise (Some Fulfilled)
         (set_loadingState false
            (set_translations (set_all data (translations w))
               (emit_all (fetch (url config)
                          :: (data ≫= λ _, [console_warn DatabaseNotInitialized;
                                            console_error ErrorSaving])
                          ++ [loading false]) opened))))).
  { unfold settle, mbind at 1, M_bind at 1, gets. rewrite Hp.
    unfold run_task, try_catch, task_rest, mbind at 1 2, M_bind.
    assert (Hinit : TranslationDBService.init config w = (Returned tt, opened)).
    { subst opened. rewrite init_run. by destruct (openDB_fails w). }
    rewrite Hinit.
    unfold loadTranslations, try_catch, mbind at 1 2 3, M_bind, log, modify, gets.
    change (remote (emit (fetch (url config)) opened)) with (remote opened).
    rewrite Hremote', Hremote.
    rewrite saveAll_closed by (cbn [db emit emit_all]; congruence).
    cbn [translations emit emit_all]. rewrite Htable.
    unfold loadingState_next, mbind at 1, M_bind, modify, log, emit, emit_all,
      set_initPromise, set_loadingState, set_translations. simpl.
    by rewrite <- !app_assoc. }
  rewrite Hrun. cbn [result after fst snd initPromise translations indexedDB console
    set_initPromise set_loadingState set_translations emit_all].
  split; [reflexivity | ]. split; [reflexivity | ].
  split; [intros k v Hin; by apply set_all_elem | ].
  split; [exact Hidb | ].
  rewrite Hconsole. rewrite !count_app, !count_cons, count_app.
  assert (Hsaves : Trace.count Host.is_failed_save
                     (data ≫= λ _, [console_warn DatabaseNotInitialized;
                                    console_error ErrorSaving])
                   = List.length data).
  { clear. induction data as [ | x data IH ]; [reflexivity | ].
    cbn [mbind list_bind]. rewrite count_app, IH. reflexivity. }
  rewrite Hsaves. unfold Trace.count. simpl. lia.
Qed.

Lemma fetched_entries_without_store_witness :
  let w := after (init Sample.config (new_world ∅ true (Body [("HELLO", Sample.hello)]))) in
  translations (after (settle w)) !! "HELLO" = Some Sample.hello
  ∧ indexedDB (after (settle w)) = ∅.
Proof.
  intros w.
  pose proof (fetched_entries_without_store w Sample.config
                [("HELLO", Sample.hello)] eq_refl eq_refl eq_refl eq_refl) as H.
  assert (Hnd : NoDup (JS.keys [("HELLO", Sample.hello)])).
  { apply NoDup_cons. split; [apply not_elem_of_nil | apply NoDup_nil_2]. }
  destruct (H Hnd) as (_ & _ & Hin & Hidb & _).
  split; [ | exact Hidb ].
  apply Hin. apply list_elem_of_singleton. reflexivity.
Defined.

(** ** From one run to the next *)

(** What the call of [init] leaves of a service that was not initialised. *)
Lemma init_first_fields config w :
  initPromise w = None →
  let w1 := after (init config w) in
  initPromise w1 = Some (Pending config) ∧ accepted w1 = acceptedLanguages config
  ∧ loadingState w1 = loadingState w ∧ translations w1 = translations w
  ∧ db w1 = db w ∧ indexedDB w1 = indexedDB w
  ∧ openDB_fails w1 = openDB_fails w ∧ remote w1 = remote w.
Proof.
  intros Hp w1. subst w1.
  destruct (init_first config w Hp) as (evs & lang' & Hrun & _).
  rewrite Hrun. by repeat split.
Qed.

(** The pending task when the fetch fails and the store opens: an entry
    the store holds under a non-empty key is put in memory. *)
Lemma settle_offline_lookup config w k v :
  initPromise w = Some (Pending config) → (∀ data, remote w ≠ Body data) →
  openDB_fails w = false →
  TranslationDBService.store
    (default TranslationDBService.DEFAULT_DB_NAME (dbName config)) w !! k = Some v →
  k ≠ "" →
  translations (after (settle w)) !! k = Some v.
Proof.
  intros Hp Hremote Hfails Hstored Hk.
  destruct (settle_run config w Hp) as (evs & idb & Hrun & _).
  rewrite Hrun. cbn [after snd translations set_initPromise set_loadingState
    set_indexedDB set_translations].
  destruct (remote w) as [ | s | | data ] eqn:Hr; try (by destruct (Hremote data));
    rewrite set_all_map_to_list, snapshot_opened by exact Hfails;
    (erewrite (proj2 (map_lookup_filter_Some _ _ k v)); [reflexivity | ]);
    (split; [exact Hstored | by destruct k]).
Qed.

Lemma settle_fetched_fields config w data :
  initPromise w = Some (Pending config) → remote w = Body data →
  openDB_fails w = false →
  let name := default TranslationDBService.DEFAULT_DB_NAME (dbName config) in
  translations (after (settle w)) = set_all data (translations w)
  ∧ TranslationDBService.store name (after (settle w))
    = set_all data (TranslationDBService.store name w).
Proof.
  intros Hp Hremote Hfails name.
  rewrite (settle_fetched config w data Hp Hremote Hfails). fold name.
  cbn [after snd]. split; [reflexivity | ].
  unfold TranslationDBService.store at 1.
  cbn [indexedDB set_initPromise set_loadingState set_indexedDB].
  by rewrite lookup_insert_eq.
Qed.



(** ** The default language *)

Lemma notifications_diagnostic (evs : list event) :
  forallb Trace.diagnostic evs = true → Trace.notifications evs = [].
Proof.
  induction evs as [ | e evs IH ]; [reflexivity | ].
  simpl. intros H. apply andb_true_iff in H as [He Hevs].
  unfold Trace.notifications. cbn [omap list_omap].
  destruct e; try discriminate; by apply IH.
Qed.

Lemma notifications_skip e (l : list event) :
  (∀ lang, e ≠ langChange lang) → Trace.notifications (e :: l) = Trace.notifications l.
Proof.
  intros He. unfold Trace.notifications. cbn [omap list_omap].
  destruct e; try reflexivity. by destruct (He lang).
Qed.

(** The call of [init] on a service that is loading takes the default
    language as it is. *)
Lemma init_on_loading config w :
  initPromise w = None → loadingState w = true →
  ∃ evs,
    init config w
    = (Returned tt,
       set_initPromise (Some (Pending config))
         (set_langChangeSubject (Some (defaultLang config))
            (set_currentLang (Some (defaultLang config))
               (set_accepted (acceptedLanguages config)
                  (emit_all (evs ++ [langChange (Some (defaultLang config))]) w)))))
    ∧ forallb Trace.diagnostic evs = true.
Proof.
  intros Hp Hl. unfold init, task_begin, mbind, M_bind, gets. rewrite Hp.
  destruct (validateConfig_run config w) as (evs & Hrun & Hdiag). rewrite Hrun.
  unfold modify at 1.
  rewrite setLanguage_run by (left; exact Hp).
  unfold isLanguageSupported. cbn [loadingState set_accepted emit_all]. rewrite Hl.
  exists evs. split; [ | exact Hdiag ].
  unfold modify, set_initPromise, set_langChangeSubject, set_currentLang,
    set_accepted, emit_all. simpl. by rewrite <- !app_assoc.
Qed.

(** X16.  [init] makes the configured default language the current one without
    checking it against the accepted languages: it is announced once, it is
    still the current language when the load has completed, and from then on
    [isLanguageSupported] is membership in the configured list, so that the
    current language can be one that [isLanguageSupported] refuses. *)
Theorem default_language_is_not_validated (w : World) (config : TranslationConfig) :
  initPromise w = None → loadingState w = true →
  let pending := Host.perform (Host.Init config) w in
  let ready := Host.perform Host.Resume pending in
  Host.currentLanguage pending = Some (defaultLang config)
  ∧ Host.currentLanguage ready = Some (defaultLang config)
  ∧ Host.supportedLanguages ready = acceptedLanguages config
  ∧ Host.isLoading ready = false
  ∧ (∀ lang, isLanguageSupported ready lang
             = bool_decide (lang ∈ acceptedLanguages config))
  ∧ Trace.notifications (console ready)
    = Trace.notifications (console w) ++ [Some (defaultLang config)].
Proof.
  intros Hp Hl pending ready.
  destruct (init_on_loading config w Hp Hl) as (evs0 & Hinit & Hdiag0).
  assert (Hpending : initPromise pending = Some (Pending config)).
  { subst pending. unfold Host.perform. by rewrite Hinit. }
  destruct (settle_run config pending Hpending) as (evs & idb & Hsettle & Hdiag).
  destruct (open_frame config pending) as (Hlang & Haccepted & _).
  destruct (init_console config pending) as (evs1 & Hopened & Hdiag1).
  assert (Hready : ready = after (settle pending)) by reflexivity.
  rewrite Hready, Hsettle.
  unfold Host.currentLanguage, Host.supportedLanguages, Host.isLoading, isLanguageSupported.
  cbn [after snd currentLang accepted loadingState console set_initPromise
       set_loadingState set_indexedDB set_translations emit_all].
  rewrite Hlang, Haccepted, Hopened.
  assert (Hfields : currentLang pending = Some (defaultLang config)
                    ∧ accepted pending = acceptedLanguages config
                    ∧ console pending
                      = console w ++ evs0 ++ [langChange (Some (defaultLang config))]).
  { subst pending. unfold Host.perform. rewrite Hinit. by repeat split. }
  destruct Hfields as (-> & -> & ->).
  split; [reflexivity | ]. split; [reflexivity | ]. split; [reflexivity | ].
  split; [reflexivity | ]. split; [reflexivity | ].
  rewrite !notifications_app, (notifications_diagnostic evs0 Hdiag0).
  rewrite (notifications_skip (openDB _)) by (intros lang0 H0; discriminate H0).
  rewrite (notifications_diagnostic evs1 Hdiag1).
  rewrite (notifications_skip (fetch _)) by (intros lang0 H0; discriminate H0).
  rewrite notifications_app, (notifications_diagnostic evs Hdiag).
  cbn [app]. by rewrite !app_nil_r.
Qed.

Lemma default_language_is_not_validated_witness :
  let config := {| projectId := "demo"; endpoint := "https://api.example.com";
                   defaultLang := "de"; acceptedLanguages := ["en"; "fr"];
                   apiKey := None; dbName := None; moduleName := None |} in
  let ready := Host.run [Host.Init config; Host.Resume] (new_world ∅ false NetworkError) in
  Host.currentLanguage ready = Some "de"
  ∧ isLanguageSupported ready "de" = false.
Proof.
  intros config ready.
  pose proof (default_language_is_not_validated (new_world ∅ false NetworkError) config
                eq_refl eq_refl) as (_ & Hcurrent & _ & _ & Hsupported & _).
  split; [exact Hcurrent | ]. exact (Hsupported "de").
Defined.

(** ** Whatever the host calls *)

Section Calls.
Import Trace Host.

Lemma instant_after key params w :
  after (instant key params w)
  = match initPromise w with
    | None => emit (console_warn ServiceNotInitialized) w
    | Some _ => w
    end.
Proof.
  unfold instant, mbind, M_bind, gets.
  destruct (initPromise w); [ | reflexivity ].
  match goal with |- context [ replaceParams ?t params ] =>
    destruct (replaceParams_pure t params) as (o & Ho) end.
  by rewrite Ho.
Qed.

Lemma coherent_can_switch w :
  Host.coherent w →
  initPromise w = None ∨ loadingState w = true ∨ initPromise w = Some Fulfilled.
Proof.
  unfold Host.coherent. destruct (initPromise w) as [ [ c | | ] | ].
  - intros [Hl _]. right. by left.
  - intros _. right. by right.
  - done.
  - intros _. by left.
Qed.

Lemma kept_refl w : kept w w.
Proof. unfold kept. by repeat (split; [auto | ]). Qed.

Lemma kept_trans w1 w2 w3 : kept w1 w2 → kept w2 w3 → kept w1 w3.
Proof.
  unfold kept.
  intros (Hp & Hl & Ha & Hf & Ho & Ht & Hd) (Hp' & Hl' & Ha' & Hf' & Ho' & Ht' & Hd').
  split; [congruence | ]. split; [congruence | ]. split; [congruence | ].
  split; [congruence | ]. split; [congruence | ]. split.
  - destruct Ht' as [Ht' | Ht']; [ | by right ].
    destruct Ht as [Ht | Ht]; [left | right]; congruence.
  - intros Hnone. destruct (Hd Hnone) as [Hdb Hidb].
    destruct (Hd' Hdb) as [Hdb' Hidb']. split; congruence.
Qed.

Lemma kept_emit_all evs w :
  count is_fetch evs = 0 → count is_openDB evs = 0 → kept w (emit_all evs w).
Proof.
  intros Hf Ho. unfold kept. cbn [initPromise loadingState accepted console translations
    db indexedDB emit_all].
  rewrite !count_app, Hf, Ho. repeat split; auto.
Qed.

Lemma setLanguage_kept lang w : Host.coherent w → kept w (after (setLanguage lang w)).
Proof.
  intros Hc. rewrite setLanguage_run by (by apply coherent_can_switch).
  cbn [after snd].
  match goal with |- kept w (set_langChangeSubject ?l (set_currentLang ?l (emit_all ?evs w))) =>
    apply (kept_trans w (emit_all evs w)); [ | unfold kept; repeat split; auto ] end.
  apply kept_emit_all; by destruct (isLanguageSupported w lang).
Qed.

Lemma instant_kept key params w : kept w (after (instant key params w)).
Proof.
  rewrite instant_after. destruct (initPromise w); [apply kept_refl | ].
  by apply (kept_emit_all [console_warn ServiceNotInitialized]).
Qed.

Lemma translate_kept key w : kept w (after (translate key w)).
Proof.
  unfold translate, waitForInitialization, mbind, M_bind, gets, suspend, throw, log, modify.
  destruct (initPromise w) as [ [ c | | ] | ]; cbn [after snd]; try apply kept_refl.
  by apply (kept_emit_all [console_warn NotInitializedUsingFallback]).
Qed.

Lemma kept_cleared w w1 :
  kept w w1 → kept w (after (waitForInitialization (set_translations ∅ w1))).
Proof.
  intros Hk. apply (kept_trans w w1); [exact Hk | ].
  apply (kept_trans w1 (set_translations ∅ w1)).
  { unfold kept. repeat split; auto. }
  unfold waitForInitialization, mbind, M_bind, gets, suspend, throw, log, modify.
  destruct (initPromise (set_translations ∅ w1)) as [ [ c | | ] | ];
    cbn [after snd]; try apply kept_refl.
  by apply (kept_emit_all [console_warn NotInitializedUsingFallback]).
Qed.

Lemma clearModuleCache_after w :
  after (clearModuleCache w)
  = after (waitForInitialization
             (set_translations ∅ (after (TranslationDBService.clearCache w)))).
Proof.
  unfold clearModuleCache. unfold mbind at 1 2, M_bind, modify.
  rewrite clearCache_run. by destruct (db w).
Qed.

Lemma clearAllCache_after w :
  after (clearAllCache w)
  = after (waitForInitialization
             (set_translations ∅ (after (TranslationDBService.clearDB w)))).
Proof.
  unfold clearAllCache. unfold mbind at 1 2, M_bind, modify.
  rewrite clearDB_run. by destruct (db w).
Qed.

Lemma clearModuleCache_kept w : kept w (after (clearModuleCache w)).
Proof.
  rewrite clearModuleCache_after. apply kept_cleared. rewrite clearCache_run.
  destruct (db w) eqn:Hdb; cbn [after snd].
  - unfold kept. cbn [initPromise loadingState accepted console translations db indexedDB
      set_indexedDB].
    split_and!; try reflexivity; [by left | intros H; congruence].
  - apply (kept_trans w (emit (console_warn DatabaseNotInitialized) w));
      by apply (kept_emit_all [_]).
Qed.

Lemma clearAllCache_kept w : kept w (after (clearAllCache w)).
Proof.
  rewrite clearAllCache_after. apply kept_cleared. rewrite clearDB_run.
  destruct (db w) as [ name | ] eqn:Hdb; cbn [after snd]; [ | apply kept_refl ].
  apply (kept_trans w (emit_all [deleteDB name] w)); [by apply kept_emit_all | ].
  unfold kept. cbn [initPromise loadingState accepted console translations db indexedDB
    set_db set_indexedDB emit emit_all].
  split_and!; try reflexivity; [by left | intros H; congruence].
Qed.

Lemma perform_kept c w :
  Host.coherent w →
  match c with
  | Host.Init _ | Host.Resume => initPromise w = Some Fulfilled
  | _ => True
  end →
  kept w (Host.perform c w).
Proof.
  intros Hc Hcase. destruct c; cbn [Host.perform].
  - rewrite init_again by (rewrite Hcase; discriminate). apply kept_refl.
  - unfold settle, mbind, M_bind, gets. rewrite Hcase. apply kept_refl.
  - by apply setLanguage_kept.
  - apply instant_kept.
  - apply translate_kept.
  - apply clearModuleCache_kept.
  - apply clearAllCache_kept.
Qed.

Lemma kept_coherent w w' : kept w w' → Host.coherent w → Host.coherent w'.
Proof.
  unfold kept, Host.coherent. intros (Hp & Hl & Ha & _). by rewrite Hp, Hl, Ha.
Qed.

Lemma perform_coherent c w : Host.coherent w → Host.coherent (Host.perform c w).
Proof.
  intros Hc.
  destruct c as [ config | | lang | key params | key | | ];
    try (apply (kept_coherent w); [by apply perform_kept | exact Hc]).
  - (* init *)
    cbn [Host.perform]. destruct (initPromise w) as [ p | ] eqn:Hp.
    + rewrite init_again by (rewrite Hp; discriminate). exact Hc.
    + unfold Host.coherent in Hc. rewrite Hp in Hc. destruct Hc as [Hl _].
      destruct (init_on_loading config w Hp Hl) as (evs & Hrun & _).
      rewrite Hrun. unfold Host.coherent. cbn [after snd initPromise loadingState accepted
        set_initPromise set_langChangeSubject set_currentLang set_accepted emit_all].
      by split.
  - (* the pending task *)
    cbn [Host.perform]. destruct (initPromise w) as [ [ config | | ] | ] eqn:Hp.
    + destruct (settle_run config w Hp) as (evs & idb & Hrun & _).
      rewrite Hrun. reflexivity.
    + unfold settle, mbind, M_bind, gets. by rewrite Hp.
    + unfold Host.coherent in Hc. by rewrite Hp in Hc.
    + unfold settle, mbind, M_bind, gets. by rewrite Hp.
Qed.

Lemma run_coherent calls w : Host.coherent w → Host.coherent (Host.run calls w).
Proof.
  revert w. induction calls as [ | c calls IH ]; intros w Hc; [exact Hc | ].
  apply IH. by apply perform_coherent.
Qed.

Lemma run_kept calls w :
  initPromise w = Some Fulfilled → loadingState w = false → kept w (Host.run calls w).
Proof.
  revert w. induction calls as [ | c calls IH ]; intros w Hp Hl; [apply kept_refl | ].
  assert (Hc : Host.coherent w) by (unfold Host.coherent; by rewrite Hp).
  assert (Hk : kept w (Host.perform c w)).
  { apply perform_kept; [exact Hc | by destruct c]. }
  apply (kept_trans w (Host.perform c w)); [exact Hk | ].
  destruct Hk as (Hp' & Hl' & _). apply IH; congruence.
Qed.

End Calls.

(** X17.  From a freshly constructed service, whatever is called and in whatever
    order, the promise of [init] is never rejected, the loading state is
    off exactly when that promise is fulfilled, and the accepted languages
    are empty until [init]; so [setLanguage] always returns, [translate]
    never throws, and [instant] without parameters always returns. *)
Theorem reachable_states (idb : gmap string (gmap string TranslationValue))
    (fails : bool) (answer : remote_answer) (calls : list Host.call) :
  let w := Host.run calls (new_world idb fails answer) in
  Host.coherent w
  ∧ initPromise w ≠ Some Rejected
  ∧ (Host.isLoading w = false ↔ initPromise w = Some Fulfilled)
  ∧ (initPromise w = None → Host.supportedLanguages w = [])
  ∧ (∀ lang, result (setLanguage lang w) = Returned tt)
  ∧ (∀ key e, result (translate key w) ≠ Thrown e)
  ∧ (∀ key, ∃ s, instant key None w = (Returned s, after (instant key None w))).
Proof.
  intros w.
  assert (Hc : Host.coherent w).
  { apply run_coherent. unfold Host.coherent. by split. }
  split; [exact Hc | ].
  unfold Host.coherent in Hc. unfold Host.isLoading, Host.supportedLanguages.
  split; [ | split; [ | split; [ | split; [ | split ] ] ] ].
  - intros Hp. by rewrite Hp in Hc.
  - destruct (initPromise w) as [ [ c | | ] | ]; [ | done | done | ].
    + destruct Hc as [Hl _]. rewrite Hl. split; discriminate.
    + destruct Hc as [Hl _]. rewrite Hl. split; discriminate.
  - intros Hp. rewrite Hp in Hc. by destruct Hc.
  - intros lang. rewrite setLanguage_run; [reflexivity | ].
    by apply coherent_can_switch.
  - intros key e. unfold translate, waitForInitialization, mbind, M_bind, gets,
      suspend, log, modify.
    destruct (initPromise w) as [ [ c | | ] | ]; try discriminate. done.
  - intros key. unfold instant, mbind, M_bind, gets, log, modify.
    destruct (initPromise w); eexists; reflexivity.
Qed.

(** X18.  Once the service is ready it stays ready: whatever is called afterwards,
    the promise stays fulfilled, the loading state stays off, the accepted
    languages stay the same, no further fetch and no further open of the
    store is made, and the table is either what it was or empty. *)
Theorem ready_for_good (w : World) (calls : list Host.call) :
  initPromise w = Some Fulfilled → loadingState w = false →
  let w' := Host.run calls w in
  initPromise w' = Some Fulfilled
  ∧ Host.isLoading w' = false
  ∧ Host.supportedLanguages w' = Host.supportedLanguages w
  ∧ Trace.count Trace.is_fetch (console w') = Trace.count Trace.is_fetch (console w)
  ∧ Trace.count Trace.is_openDB (console w') = Trace.count Trace.is_openDB (console w)
  ∧ (translations w' = translations w ∨ translations w' = ∅).
Proof.
  intros Hp Hl w'.
  destruct (run_kept calls w Hp Hl) as (Hp' & Hl' & Ha & Hf & Ho & Ht & _).
  unfold Host.isLoading, Host.supportedLanguages. fold w' in Hp', Hl', Ha, Hf, Ho, Ht.
  split_and!; congruence.
Qed.

Lemma ready_for_good_witness :
  let w := Host.run [Host.Init Sample.config; Host.Resume]
             (new_world ∅ false (Body [("HELLO", Sample.hello)])) in
  let w' := Host.run [Host.ClearModuleCache; Host.Init Sample.config; Host.Resume;
                      Host.SetLanguage "fr"; Host.Translate "HELLO"] w in
  Host.isLoading w' = false
  ∧ Trace.count Trace.is_fetch (console w') = 1.
Proof.
  intros w w'.
  pose proof (ready_for_good w
                [Host.ClearModuleCache; Host.Init Sample.config; Host.Resume;
                 Host.SetLanguage "fr"; Host.Translate "HELLO"] eq_refl eq_refl)
    as (_ & Hloading & _ & Hfetch & _).
  split; [exact Hloading | exact (eq_trans Hfetch eq_refl)].
Defined.

(** X19.  A cache-clear on a ready service is final.  After [clearModuleCache] or
    [clearAllCache], whatever is called next, the table is empty and every
    lookup answers with its key; after [clearAllCache] the adapter moreover
    stays without a connection and the database it dropped is not created
    again. *)
Theorem cache_clear_is_final (w : World) (calls : list Host.call) :
  initPromise w = Some Fulfilled → loadingState w = false →
  (let w' := Host.run (Host.ClearModuleCache :: calls) w in
   translations w' = ∅ ∧ ∀ key, instant key None w' = (Returned key, w'))
  ∧ (let w' := Host.run (Host.ClearAllCache :: calls) w in
     translations w' = ∅
     ∧ (∀ key, instant key None w' = (Returned key, w'))
     ∧ db w' = None
     ∧ ∀ name, db w = Some name → indexedDB w' !! name = None).
Proof.
  intros Hp Hl.
  assert (Hlookup : ∀ w', initPromise w' = Some Fulfilled → translations w' = ∅ →
                          ∀ key, instant key None w' = (Returned key, w')).
  { intros w' Hp' Ht' key. apply instant_empty_table; [by rewrite Hp' | exact Ht']. }
  split.
  - intros w'. subst w'. cbn [Host.run foldl Host.perform].
    rewrite clearModuleCache_run by exact Hp. cbn [after snd].
    match goal with |- context [ foldl _ ?w1 calls ] => set (cleared := w1) end.
    assert (Hp1 : initPromise cleared = Some Fulfilled).
    { subst cleared. rewrite clearCache_run. by destruct (db w). }
    assert (Hl1 : loadingState cleared = false).
    { subst cleared. rewrite clearCache_run. by destruct (db w). }
    destruct (run_kept calls cleared Hp1 Hl1) as (Hp' & _ & _ & _ & _ & Ht & _).
    assert (Hempty : translations (Host.run calls cleared) = ∅).
    { destruct Ht as [Ht | Ht]; [rewrite Ht; reflexivity | exact Ht]. }
    split; [exact Hempty | ].
    apply (Hlookup (Host.run calls cleared) (eq_trans Hp' Hp1) Hempty).
  - intros w'. subst w'. cbn [Host.run foldl Host.perform].
    rewrite clearAllCache_run by exact Hp. cbn [after snd].
    match goal with |- context [ foldl _ ?w1 calls ] => set (cleared := w1) end.
    assert (Hp1 : initPromise cleared = Some Fulfilled).
    { subst cleared. rewrite clearDB_run. by destruct (db w). }
    assert (Hl1 : loadingState cleared = false).
    { subst cleared. rewrite clearDB_run. by destruct (db w). }
    assert (Hdb1 : db cleared = None).
    { subst cleared. rewrite clearDB_run. by destruct (db w) eqn:Hdb. }
    destruct (run_kept calls cleared Hp1 Hl1) as (Hp' & _ & _ & _ & _ & Ht & Hd).
    destruct (Hd Hdb1) as [Hdb' Hidb'].
    assert (Hempty : translations (Host.run calls cleared) = ∅).
    { destruct Ht as [Ht | Ht]; [rewrite Ht; reflexivity | exact Ht]. }
    split; [exact Hempty | ].
    split; [apply (Hlookup (Host.run calls cleared) (eq_trans Hp' Hp1) Hempty) | ].
    split; [exact Hdb' | ].
    intros name Hname.
    change (indexedDB (Host.run calls cleared) !! name = None). rewrite Hidb'.
    subst cleared. rewrite clearDB_run, Hname. cbn [after snd indexedDB set_translations
      set_db set_indexedDB]. apply lookup_delete_eq.
Qed.

Lemma cache_clear_is_final_witness :
  let w := Host.run [Host.Init Sample.config; Host.Resume]
             (new_world ∅ false (Body [("HELLO", Sample.hello)])) in
  let w' := Host.run [Host.ClearAllCache; Host.Init Sample.config; Host.Resume] w in
  result (instant "HELLO" None w) = Returned "Hello"
  ∧ instant "HELLO" None w' = (Returned "HELLO", w')
  ∧ indexedDB w' !! "translations-db" = None.
Proof.
  intros w w'.
  pose proof (proj2 (cache_clear_is_final w [Host.Init Sample.config; Host.Resume]
                       eq_refl eq_refl)) as (_ & Hlookup & _ & Hdropped).
  split; [reflexivity | ]. split; [apply Hlookup | ].
  apply Hdropped. reflexivity.
Defined.
